(** * routerlist.c: the list of known routers, node selection and exit policies

    A shallow embedding of [src/trunk/src/or/routerlist.c].  Pointers to
    [routerinfo_t] objects owned by the routerlist are modelled by the position
    of the object in [routerlist->routers]; a smartlist of such pointers is a
    list of positions.  Integers of the C code are modelled in [Z]; flags that
    the C code only tests for truth are modelled in [bool]. *)

From stdpp Require Import base numbers list strings.
From Equations Require Import Equations.
From Stdlib Require Import Ascii ZArith Lia.

Set Default Proof Using "Type".

(** ** Exit policies (router_compare_addr_to_exit_policy) *)

(** The two clause kinds of or.h ([EXIT_POLICY_ACCEPT], [EXIT_POLICY_REJECT]). *)
Inductive exit_policy_type := EXIT_POLICY_ACCEPT | EXIT_POLICY_REJECT.

(** The three answers of or.h ([ADDR_POLICY_ACCEPTED] = 0,
    [ADDR_POLICY_REJECTED] = -1, [ADDR_POLICY_UNKNOWN] = 1). *)
Inductive addr_policy_result :=
  | ADDR_POLICY_ACCEPTED
  | ADDR_POLICY_REJECTED
  | ADDR_POLICY_UNKNOWN.

(** One clause of [struct exit_policy_t]; the [next] pointer is the tail of the
    list that holds the clause. *)
Record exit_policy_t := {
  policy_type : exit_policy_type;
  pol_string : string;
  pol_addr : Z;
  msk : Z;
  prt_min : Z;
  prt_max : Z
}.

(** [port >= tmpe->prt_min && port <= tmpe->prt_max] *)
Definition port_in_range (port : Z) (tmpe : exit_policy_t) : bool :=
  (prt_min tmpe <=? port)%Z && (port <=? prt_max tmpe)%Z.

(** The first half of the loop body: the values of [match] and [maybe] that
    one clause produces, in this order.  [addr = 0] means that the address is
    not known, [port = 0] that the port is not known. *)
Definition clause_match (addr port : Z) (tmpe : exit_policy_t) : bool * bool :=
  if (addr =? 0)%Z then
    if port_in_range port tmpe then
      if (msk tmpe =? 0)%Z then (true, false) else (false, true)
    else if (port =? 0)%Z then (false, true)
    else (false, false)
  else
    if (Z.land addr (msk tmpe) =? Z.land (pol_addr tmpe) (msk tmpe))%Z then
      if port_in_range port tmpe then (true, false)
      else if (port =? 0)%Z then (false, true)
      else (false, false)
    else (false, false).

(** The loop of router_compare_addr_to_exit_policy, with its two flags. *)
Fixpoint compare_addr_loop (addr port : Z) (maybe_reject maybe_accept : bool)
    (policy : list exit_policy_t) : addr_policy_result :=
  match policy with
  | [] => if maybe_reject then ADDR_POLICY_UNKNOWN else ADDR_POLICY_ACCEPTED
  | tmpe :: next =>
      let '(is_match, maybe) := clause_match addr port tmpe in
      let maybe_reject' :=
        if maybe then
          match policy_type tmpe with
          | EXIT_POLICY_REJECT => true
          | EXIT_POLICY_ACCEPT => maybe_reject
          end
        else maybe_reject in
      let maybe_accept' :=
        if maybe then
          match policy_type tmpe with
          | EXIT_POLICY_REJECT => maybe_accept
          | EXIT_POLICY_ACCEPT => true
          end
        else maybe_accept in
      if is_match then
        match policy_type tmpe with
        | EXIT_POLICY_ACCEPT =>
            if maybe_reject' then ADDR_POLICY_UNKNOWN else ADDR_POLICY_ACCEPTED
        | EXIT_POLICY_REJECT =>
            if maybe_accept' then ADDR_POLICY_UNKNOWN else ADDR_POLICY_REJECTED
        end
      else compare_addr_loop addr port maybe_reject' maybe_accept' next
  end.

Definition router_compare_addr_to_exit_policy (addr port : Z)
    (policy : list exit_policy_t) : addr_policy_result :=
  compare_addr_loop addr port false false policy.

(** What the specification says about a possible match when the address is
    unknown: the mask is nonzero and the port is in range, or the mask is 0 and
    the port is the wildcard. *)
Definition spec_possible_match_unknown_addr (port : Z) (tmpe : exit_policy_t) : Prop :=
  (msk tmpe ≠ 0%Z ∧ port_in_range port tmpe = true) ∨
  (msk tmpe = 0%Z ∧ port = 0%Z).

(** Accept 1.2.3.4/32 port 80 *)
Definition accept_1_2_3_4_port_80 : exit_policy_t :=
  {| policy_type := EXIT_POLICY_ACCEPT; pol_string := "accept 1.2.3.4:80";
     pol_addr := 16909060; msk := 4294967295; prt_min := 80; prt_max := 80 |}.

(** Reject 0.0.0.0/0, every port; the bounds of the port range are left open. *)
Definition reject_all (lo hi : Z) : exit_policy_t :=
  {| policy_type := EXIT_POLICY_REJECT; pol_string := "reject *:*";
     pol_addr := 0; msk := 0; prt_min := lo; prt_max := hi |}.

(** ** Strings and digests (libc and util.c) *)

(** Lengths of an identity digest and of its hexadecimal form (crypto.h). *)
Definition DIGEST_LEN : nat := 20.
Definition HEX_DIGEST_LEN : nat := 40.

Definition char_code (c : ascii) : Z := Z.of_N (N_of_ascii c).

(** [tolower] of the C locale. *)
Definition tolower (c : ascii) : Z :=
  let n := char_code c in
  if (65 <=? n)%Z && (n <=? 90)%Z then (n + 32)%Z else n.

(** [strcasecmp]: 0 when the strings are equal up to the case of letters, else
    the difference of the first pair of lower-cased characters that differ. *)
Fixpoint strcasecmp (s1 s2 : string) : Z :=
  match s1, s2 with
  | EmptyString, EmptyString => 0
  | EmptyString, String c2 _ => (0 - tolower c2)%Z
  | String c1 _, EmptyString => tolower c1
  | String c1 r1, String c2 r2 =>
      if (tolower c1 =? tolower c2)%Z then strcasecmp r1 r2
      else (tolower c1 - tolower c2)%Z
  end.

(** [isspace] of the C locale: space, and the controls 9 to 13. *)
Definition isspace (c : ascii) : bool :=
  let n := char_code c in
  (n =? 32)%Z || ((9 <=? n)%Z && (n <=? 13)%Z).

(** [s[0] == c]; the first character of the empty string is the terminator. *)
Definition first_char_is (c : ascii) (s : string) : bool :=
  match s with
  | String c0 _ => Ascii.eqb c0 c
  | EmptyString => false
  end.

(** [++s] after a test of [s[0]]. *)
Definition skip_char (s : string) : string :=
  match s with
  | String _ rest => rest
  | EmptyString => EmptyString
  end.

(** Modelled from the spec: the value of one hexadecimal digit; util.c, which
    holds base16_decode, is not part of the sources, and the spec asks for a
    hex-encoded digest whose malformed forms match nothing. *)
Definition hex_decode_digit (c : ascii) : option Z :=
  let n := char_code c in
  if (48 <=? n)%Z && (n <=? 57)%Z then Some (n - 48)%Z
  else if (65 <=? n)%Z && (n <=? 70)%Z then Some (n - 55)%Z
  else if (97 <=? n)%Z && (n <=? 102)%Z then Some (n - 87)%Z
  else None.

(** Modelled from the spec: base16_decode of util.c, two digits per byte;
    [None] stands for its negative result on malformed input. *)
Fixpoint base16_decode (src : string) : option (list Z) :=
  match src with
  | EmptyString => Some []
  | String _ EmptyString => None
  | String c1 (String c2 rest) =>
      match hex_decode_digit c1, hex_decode_digit c2, base16_decode rest with
      | Some v1, Some v2, Some dest => Some (Z.lor (Z.shiftl v1 4) v2 :: dest)
      | _, _, _ => None
      end
  end.

(** [strlen(s) == HEX_DIGEST_LEN && base16_decode(digest, DIGEST_LEN, s,
    HEX_DIGEST_LEN) == 0], with the decoded digest. *)
Definition decode_hexdigest (s : string) : option (list Z) :=
  if (String.length s =? HEX_DIGEST_LEN)%nat then base16_decode s else None.

(** [memcmp(d1, d2, DIGEST_LEN) == 0] *)
Definition digest_eq (d1 d2 : list Z) : bool :=
  bool_decide (take DIGEST_LEN d1 = take DIGEST_LEN d2).

(** ** Smartlists (util.c) *)

(** Modelled from the spec: smartlist_choose of util.c, a uniformly random
    element, or NULL for an empty list.  The draw of the generator is the
    parameter [seed]; the element taken is the one at [seed mod length]. *)
Definition smartlist_choose {A} (seed : nat) (sl : list A) : option A :=
  match sl with
  | [] => None
  | _ => sl !! (seed mod length sl)%nat
  end.

(** Modelled from the spec: smartlist_subtract of util.c, which removes from
    [sl1] every element that is also in [sl2] (the spec's set difference). *)
Definition smartlist_subtract (sl1 sl2 : list nat) : list nat :=
  filter (λ p, p ∉ sl2) sl1.

(** Modelled from the spec: smartlist_del of util.c, which removes the element
    at [idx] by moving the last element into its place; the order of the
    remaining elements is not kept (smartlist_del_keeporder is the variant
    that keeps it). *)
Definition smartlist_del {A} (sl : list A) (idx : nat) : list A :=
  match last sl with
  | Some x => take (length sl - 1) (<[idx := x]> sl)
  | None => sl
  end.

(** A value together with the equation that says what it is; it keeps the
    result of a test available to the termination proofs. *)
Definition inspect {A} (a : A) : {b : A | a = b} := exist _ a eq_refl.

(** ** Outcomes of code that holds assertions *)

Inductive outcome (A : Type) : Type :=
  | Done (a : A)
  | AssertionFailed.
Arguments Done {A} a.
Arguments AssertionFailed {A}.

Definition bind_outcome {A B} (m : outcome A) (k : A → outcome B) : outcome B :=
  match m with
  | Done a => k a
  | AssertionFailed => AssertionFailed
  end.

Definition tor_assert (b : bool) : outcome unit :=
  if b then Done tt else AssertionFailed.

Notation "x ←! m ; k" := (bind_outcome m (λ x, k))
  (at level 100, m at next level, right associativity).
Notation "m ;;! k" := (bind_outcome m (λ _, k))
  (at level 100, right associativity).

(** ** The routerlist *)

(** What routerlist.c takes from the rest of the program: the key handles of
    crypto.c with their comparison (0 for equal keys), and two constants of
    or.h, the age limit and the longest nickname (the array [nick] of
    add_nickname_list_to_smartlist has one more character). *)
Class Externals := {
  pk_env : Type;
  crypto_pk_cmp_keys : pk_env → pk_env → Z;
  ROUTER_MAX_AGE : Z;
  MAX_NICKNAME_LEN : nat
}.

Section Routerlist.
Context `{Ext : Externals}.

(** [routerinfo_t], with the fields that routerlist.c reads or writes. *)
Record routerinfo_t := {
  address : string;
  nickname : string;
  addr : Z;
  or_port : Z;
  dir_port : Z;
  identity_digest : list Z;
  onion_pkey : pk_env;
  identity_pkey : pk_env;
  platform : string;
  published_on : Z;
  exit_policy : list exit_policy_t;
  is_running : bool;
  is_trusted_dir : bool
}.

Definition set_addr (r : routerinfo_t) (a : Z) : routerinfo_t :=
  {| address := address r; nickname := nickname r; addr := a;
     or_port := or_port r; dir_port := dir_port r;
     identity_digest := identity_digest r; onion_pkey := onion_pkey r;
     identity_pkey := identity_pkey r; platform := platform r;
     published_on := published_on r; exit_policy := exit_policy r;
     is_running := is_running r; is_trusted_dir := is_trusted_dir r |}.

Definition set_is_running (r : routerinfo_t) (b : bool) : routerinfo_t :=
  {| address := address r; nickname := nickname r; addr := addr r;
     or_port := or_port r; dir_port := dir_port r;
     identity_digest := identity_digest r; onion_pkey := onion_pkey r;
     identity_pkey := identity_pkey r; platform := platform r;
     published_on := published_on r; exit_policy := exit_policy r;
     is_running := b; is_trusted_dir := is_trusted_dir r |}.

Definition set_is_trusted_dir (r : routerinfo_t) (b : bool) : routerinfo_t :=
  {| address := address r; nickname := nickname r; addr := addr r;
     or_port := or_port r; dir_port := dir_port r;
     identity_digest := identity_digest r; onion_pkey := onion_pkey r;
     identity_pkey := identity_pkey r; platform := platform r;
     published_on := published_on r; exit_policy := exit_policy r;
     is_running := is_running r; is_trusted_dir := b |}.

(** [routerlist_t] *)
Record routerlist_t := {
  routers : list routerinfo_t;
  software_versions : string;
  rl_published_on : Z;
  running_routers_updated_on : Z
}.

Definition set_routers (rl : routerlist_t) (rs : list routerinfo_t) : routerlist_t :=
  {| routers := rs; software_versions := software_versions rl;
     rl_published_on := rl_published_on rl;
     running_routers_updated_on := running_routers_updated_on rl |}.

(** [running_routers_t] *)
Record running_routers_t := {
  rr_published_on : Z;
  running_routers : list string
}.

(** *** router_pick_directory_server_impl *)

(** First loop: the positions of the running trusted dirservers. *)
Fixpoint running_dirservers (i : nat) (rs : list routerinfo_t) : outcome (list nat) :=
  match rs with
  | [] => Done []
  | router :: rest =>
      if is_running router && is_trusted_dir router then
        tor_assert (0 <? dir_port router)%Z ;;!
        sl ←! running_dirservers (S i) rest ;
        Done (i :: sl)
      else running_dirservers (S i) rest
  end.

(** Second loop: every trusted dirserver is marked as running and listed. *)
Fixpoint mark_dirservers_up (i : nat) (rs : list routerinfo_t)
    : outcome (list routerinfo_t * list nat) :=
  match rs with
  | [] => Done ([], [])
  | router :: rest =>
      if is_trusted_dir router then
        tor_assert (0 <? dir_port router)%Z ;;!
        res ←! mark_dirservers_up (S i) rest ;
        Done (set_is_running router true :: res.1, i :: res.2)
      else
        res ←! mark_dirservers_up (S i) rest ;
        Done (router :: res.1, res.2)
  end.

(** The result is the chosen router and the routerlist as the call leaves it. *)
Definition router_pick_directory_server_impl (seed : nat)
    (routerlist : option routerlist_t) : outcome (option nat * option routerlist_t) :=
  match routerlist with
  | None => Done (None, None)
  | Some rl =>
      sl ←! running_dirservers 0 (routers rl) ;
      match smartlist_choose seed sl with
      | Some router => Done (Some router, Some rl)
      | None =>
          res ←! mark_dirservers_up 0 (routers rl) ;
          Done (smartlist_choose seed res.2, Some (set_routers rl res.1))
      end
  end.

(** *** Lookup by nickname or digest *)

(** router_get_by_digest: the first router with this identity digest. *)
Definition router_get_by_digest (rl : routerlist_t) (digest : list Z)
    : option (nat * routerinfo_t) :=
  list_find (λ router, digest_eq (identity_digest router) digest = true) (routers rl).

Definition router_get_by_hexdigest (routerlist : option routerlist_t)
    (hexdigest : string) : option (nat * routerinfo_t) :=
  match routerlist with
  | None => None
  | Some rl =>
      let hexdigest := if first_char_is "$"%char hexdigest then skip_char hexdigest
                       else hexdigest in
      match decode_hexdigest hexdigest with
      | None => None
      | Some digest => router_get_by_digest rl digest
      end
  end.

(** The test in the loop of router_get_by_nickname. *)
Definition nickname_or_digest_is (nick : string) (maybedigest : option (list Z))
    (router : routerinfo_t) : bool :=
  (strcasecmp (nickname router) nick =? 0)%Z ||
  match maybedigest with
  | Some digest => digest_eq digest (identity_digest router)
  | None => false
  end.

Definition router_get_by_nickname (routerlist : option routerlist_t)
    (nick : string) : option (nat * routerinfo_t) :=
  match routerlist with
  | None => None
  | Some rl =>
      if first_char_is "$"%char nick then router_get_by_hexdigest routerlist nick
      else
        let maybedigest := decode_hexdigest nick in
        list_find (λ router, nickname_or_digest_is nick maybedigest router = true)
                  (routers rl)
  end.

Definition router_hex_digest_matches (router : routerinfo_t) (hexdigest : string) : bool :=
  let hexdigest := if first_char_is "$"%char hexdigest then skip_char hexdigest
                   else hexdigest in
  match decode_hexdigest hexdigest with
  | None => false
  | Some digest => digest_eq digest (identity_digest router)
  end.

Definition router_nickname_matches (router : routerinfo_t) (nick : string) : bool :=
  if negb (first_char_is "$"%char nick) && (strcasecmp (nickname router) nick =? 0)%Z
  then true
  else router_hex_digest_matches router nick.

(** *** router_add_to_routerlist *)

(** The loop over the routers, and the final smartlist_add; the result is the
    return value and the new contents of [routerlist->routers]. *)
Fixpoint add_to_routers (router : routerinfo_t) (rs : list routerinfo_t)
    : Z * list routerinfo_t :=
  match rs with
  | [] => (0%Z, [router])
  | r :: rest =>
      if (strcasecmp (nickname router) (nickname r) =? 0)%Z then
        if (crypto_pk_cmp_keys (identity_pkey router) (identity_pkey r) =? 0)%Z then
          if (published_on r <? published_on router)%Z then
            let router1 := if is_trusted_dir r then set_is_trusted_dir router true
                           else router in
            let router2 := if (strcasecmp (address r) (address router1) =? 0)%Z
                           then set_addr router1 (addr r) else router1 in
            (0%Z, router2 :: rest)
          else
            let r1 := if is_trusted_dir router then set_is_trusted_dir r true else r in
            let r2 := set_is_running r1 (is_running router) in
            ((-1)%Z, r2 :: rest)
        else ((-1)%Z, r :: rest)
      else
        let res := add_to_routers router rest in
        (res.1, r :: res.2)
  end.

Definition router_add_to_routerlist (routerlist : routerlist_t) (router : routerinfo_t)
    : Z * routerlist_t :=
  let res := add_to_routers router (routers routerlist) in
  (res.1, set_routers routerlist res.2).

(** *** routerlist_remove_old_routers *)

(** [router->published_on < cutoff && !router->dir_port] *)
Definition too_old (cutoff : Z) (router : routerinfo_t) : bool :=
  (published_on router <? cutoff)%Z && (dir_port router =? 0)%Z.

Lemma smartlist_del_length {A} (sl : list A) (idx : nat) :
  (idx < length sl)%nat → length (smartlist_del sl idx) = (length sl - 1)%nat.
Proof.
  intros Hlt. unfold smartlist_del. destruct (last sl) eqn:Hl.
  - rewrite length_take, length_insert. lia.
  - apply last_None in Hl. subst sl. simpl in Hlt. lia.
Qed.

(** The loop; after a removal the same position is looked at again (the
    [i--] of the source followed by the [++i] of the loop). *)
Equations? remove_old_loop (cutoff : Z) (rs : list routerinfo_t) (i : nat)
    : list routerinfo_t by wf (length rs - i)%nat lt :=
  remove_old_loop cutoff rs i with inspect (rs !! i) => {
    | exist _ None _ => rs
    | exist _ (Some router) Hi with too_old cutoff router => {
        | true => remove_old_loop cutoff (smartlist_del rs i) i
        | false => remove_old_loop cutoff rs (S i) } }.
Proof.
  all: apply lookup_lt_Some in Hi.
  - rewrite smartlist_del_length by done. lia.
  - lia.
Qed.

(** [now] is the value of [time(NULL)]. *)
Definition routerlist_remove_old_routers (now : Z) (routerlist : option routerlist_t)
    : option routerlist_t :=
  match routerlist with
  | None => None
  | Some rl =>
      let cutoff := (now - ROUTER_MAX_AGE)%Z in
      Some (set_routers rl (remove_old_loop cutoff (routers rl) 0))
  end.

(** *** add_nickname_list_to_smartlist and router_choose_random_node *)

Definition is_list_sep (c : ascii) : bool := isspace c || Ascii.eqb c ","%char.

(** The loop that moves [list] past white space and commas. *)
Fixpoint skip_seps (list : string) : string :=
  match list with
  | String c rest => if is_list_sep c then skip_seps rest else list
  | EmptyString => EmptyString
  end.

(** The scan for [end]: the characters from [start] to [end], which the loop
    then copies into [nick], and the string that starts at [end]. *)
Fixpoint scan_nick (start : string) : string * string :=
  match start with
  | String c rest =>
      if is_list_sep c then (EmptyString, start)
      else let res := scan_nick rest in (String c res.1, res.2)
  | EmptyString => (EmptyString, EmptyString)
  end.

Lemma skip_seps_length list : (String.length (skip_seps list) ≤ String.length list)%nat.
Proof. induction list as [|c rest IH]; simpl; [lia|]. destruct (is_list_sep c); simpl; lia. Qed.

Lemma scan_nick_length start :
  (String.length (scan_nick start).2 ≤ String.length start)%nat.
Proof. induction start as [|c rest IH]; simpl; [lia|]. destruct (is_list_sep c); simpl; lia. Qed.

Lemma scan_then_skip_length c rest :
  (String.length (skip_seps (scan_nick (String c rest)).2) < String.length (String c rest))%nat.
Proof.
  simpl. destruct (is_list_sep c) eqn:Hc; simpl.
  - rewrite Hc. pose proof (skip_seps_length rest). lia.
  - pose proof (skip_seps_length (scan_nick rest).2).
    pose proof (scan_nick_length rest). lia.
Qed.

(** The loop over the tokens, which runs while [start] has a character.  The
    token is copied into [char nick[MAX_NICKNAME_LEN+1]] and terminated there,
    without a test of its length: a token of more than [MAX_NICKNAME_LEN]
    characters is written past the end of the array, and the behaviour of the
    program is undefined from then on.  [None] stands for that; [Some sl] is
    the smartlist when every token fits. *)
Equations? add_nickname_loop (routerlist : option routerlist_t) (sl : list nat)
    (start : string) : option (list nat) by wf (String.length start) lt :=
  add_nickname_loop routerlist sl EmptyString := Some sl;
  add_nickname_loop routerlist sl (String c rest) :=
    if (String.length (scan_nick (String c rest)).1 <=? MAX_NICKNAME_LEN)%nat then
      add_nickname_loop routerlist
        match router_get_by_nickname routerlist (scan_nick (String c rest)).1 with
        | Some (p, router) => if is_running router then sl ++ [p] else sl
        | None => sl
        end
        (skip_seps (scan_nick (String c rest)).2)
    else None.
Proof. apply scan_then_skip_length. Qed.

(** [None]: some token does not fit into [nick] (undefined behaviour). *)
Definition add_nickname_list_to_smartlist (routerlist : option routerlist_t)
    (sl : list nat) (nicklist : string) : option (list nat) :=
  add_nickname_loop routerlist sl (skip_seps nicklist).

(** [ORPort] is [options.ORPort]; [connected] answers whether
    connection_get_by_identity_digest finds an OR connection. *)
Fixpoint running_routers_from (ORPort : Z) (connected : list Z → bool)
    (i : nat) (rs : list routerinfo_t) : list nat :=
  match rs with
  | [] => []
  | router :: rest =>
      if is_running router &&
         ((ORPort =? 0)%Z || connected (identity_digest router))
      then i :: running_routers_from ORPort connected (S i) rest
      else running_routers_from ORPort connected (S i) rest
  end.

Definition router_add_running_routers_to_smartlist (ORPort : Z)
    (connected : list Z → bool) (routerlist : option routerlist_t)
    (sl : list nat) : list nat :=
  match routerlist with
  | None => sl
  | Some rl => sl ++ running_routers_from ORPort connected 0 (routers rl)
  end.

(** [if(excludedsmartlist) smartlist_subtract(sl,excludedsmartlist)] *)
Definition subtract_if_given (sl : list nat) (excludedsmartlist : option (list nat))
    : list nat :=
  match excludedsmartlist with
  | Some ex => smartlist_subtract sl ex
  | None => sl
  end.

(** The result is [None] when one of the two calls of
    add_nickname_list_to_smartlist writes past [nick] (undefined behaviour),
    and else [Some choice], where [choice] is the router returned or NULL. *)
Definition router_choose_random_node (seed : nat) (ORPort : Z)
    (connected : list Z → bool) (routerlist : option routerlist_t)
    (preferred excluded : string) (excludedsmartlist : option (list nat))
    : option (option nat) :=
  match add_nickname_list_to_smartlist routerlist [] excluded with
  | None => None
  | Some excludednodes =>
      match add_nickname_list_to_smartlist routerlist [] preferred with
      | None => None
      | Some sl =>
          let sl := smartlist_subtract sl excludednodes in
          let sl := subtract_if_given sl excludedsmartlist in
          match smartlist_choose seed sl with
          | Some choice => Some (Some choice)
          | None =>
              let sl := router_add_running_routers_to_smartlist ORPort connected
                          routerlist [] in
              let sl := smartlist_subtract sl excludednodes in
              let sl := subtract_if_given sl excludedsmartlist in
              Some (smartlist_choose seed sl)
          end
      end
  end.

(** *** routerlist_update_from_runningrouters *)

(** The inner loop over the names, for one router. *)
Fixpoint update_from_names (router : routerinfo_t) (names : list string) : routerinfo_t :=
  match names with
  | [] => router
  | name :: rest =>
      if negb (first_char_is "!"%char name) then
        if router_nickname_matches router name then set_is_running router true
        else update_from_names router rest
      else
        if router_nickname_matches router name then set_is_running router false
        else update_from_names router rest
  end.

Definition routerlist_update_from_runningrouters (list : option routerlist_t)
    (rr : running_routers_t) : option routerlist_t :=
  match list with
  | None => None
  | Some l =>
      if (rr_published_on rr <=? rl_published_on l)%Z then Some l
      else if (rr_published_on rr <=? running_routers_updated_on l)%Z then Some l
      else
        Some {| routers := map (λ router, update_from_names router (running_routers rr))
                               (routers l);
                software_versions := software_versions l;
                rl_published_on := rl_published_on l;
                running_routers_updated_on := rr_published_on rr |}
  end.

End Routerlist.

(** ** Sample data *)

(** Keys are modelled by numbers and compared by their difference; a day is the
    age limit, and nicknames have up to 19 characters. *)
Definition sample_externals : Externals :=
  {| pk_env := Z; crypto_pk_cmp_keys := λ a b, (a - b)%Z; ROUTER_MAX_AGE := 86400;
     MAX_NICKNAME_LEN := 19 |}.

(** A router with the given nickname, identity key, publication time,
    directory port and flags; its digest is the byte [key], twenty times. *)
Definition sample_router (nick : string) (key : Z) (pub dirport : Z)
    (running trusted : bool) : @routerinfo_t sample_externals :=
  @Build_routerinfo_t sample_externals "host.example" nick 0 9001 dirport
    (replicate DIGEST_LEN key) 0%Z key "Tor" pub [] running trusted.

Definition sample_list (rs : list (@routerinfo_t sample_externals))
    : @routerlist_t sample_externals :=
  @Build_routerlist_t sample_externals rs "" 0 0.

(** The hexadecimal form of the digest of key 171 (bytes AB). *)
Definition sample_hexdigest : string := "abababababABABABABABabababababABABABABAB".

(** A dirserver that is trusted and running, and a newer descriptor of the
    same router that no longer has a directory port. *)
Definition moria_trusted : @routerinfo_t sample_externals :=
  sample_router "moria1" 7 100 9031 true true.
Definition moria_without_dir_port : @routerinfo_t sample_externals :=
  sample_router "moria1" 7 200 0 true false.

(** A router without a directory port, and an older descriptor of the same
    router, trusted and with a directory port. *)
Definition plain_router : @routerinfo_t sample_externals :=
  sample_router "tor26" 8 300 0 true false.
Definition older_trusted_descriptor : @routerinfo_t sample_externals :=
  sample_router "TOR26" 8 250 9030 true true.

(** An older descriptor of [plain_router] that says "not running". *)
Definition older_not_running : @routerinfo_t sample_externals :=
  sample_router "TOR26" 8 250 0 false false.

(** A trusted dirserver that is not running. *)
Definition moria_down : @routerinfo_t sample_externals :=
  sample_router "moria1" 7 100 9031 false true.

(** Two routers published long ago, one of them with a directory port. *)
Definition old_router : @routerinfo_t sample_externals :=
  sample_router "old" 3 5 0 true false.
Definition old_dirserver : @routerinfo_t sample_externals :=
  sample_router "olddir" 4 5 9030 true false.

(** A running-routers list published at time 0. *)
Definition sample_running_routers : running_routers_t :=
  {| rr_published_on := 0; running_routers := ["moria1"; "!tor26"] |}.

(** A router whose digest is the one that [sample_hexdigest] encodes, and
    another router. *)
Definition alice_and_bob : @routerlist_t sample_externals :=
  sample_list [sample_router "alice" 171 100 0 true false;
               sample_router "bob" 2 100 0 true false].

(** The token that names the first router of [alice_and_bob] by its digest:
    the marker and forty hexadecimal digits. *)
Definition sample_digest_token : string := String "$" sample_hexdigest.

(** A newer descriptor of [moria_down]: not running, without a directory
    port, not trusted. *)
Definition moria_down_newer : @routerinfo_t sample_externals :=
  sample_router "moria1" 7 200 0 false false.

(** ** Predicates and values that the theorems speak of *)

Section Statements.
Context `{Ext : Externals}.

(** The invariant of the data model: a trusted dirserver has a directory
    port. *)
Definition trusted_have_dir_port (rs : list routerinfo_t) : Prop :=
  ∀ r, r ∈ rs → is_trusted_dir r = true → (0 < dir_port r)%Z.

(** The length of the longest token of a list of nicknames, white space and
    commas being the separators; [cur] is the length of the token that is being
    read. *)
Fixpoint max_token_length (cur : nat) (nicklist : string) : nat :=
  match nicklist with
  | EmptyString => cur
  | String c rest =>
      if is_list_sep c then max cur (max_token_length 0 rest)
      else max_token_length (S cur) rest
  end.

(** Every token of the list fits into [nick]. *)
Definition nicknames_fit (nicklist : string) : Prop :=
  (max_token_length 0 nicklist ≤ MAX_NICKNAME_LEN)%nat.

(** Modelled from the spec: one attempt of the dirserver selection as the
    specification has it, for every routerlist with a trusted router and no
    trusted router that is running: all trusted routers are marked as running
    and one is returned. *)
Definition spec_pick_marks_trusted_up (seed : nat) (rl : routerlist_t) : Prop :=
  (∃ r, r ∈ routers rl ∧ is_trusted_dir r = true) →
  (∀ r, r ∈ routers rl → ¬ (is_trusted_dir r = true ∧ is_running r = true)) →
  ∃ p rl', router_pick_directory_server_impl seed (Some rl) = Done (Some p, Some rl') ∧
           ∀ r', r' ∈ routers rl' → is_trusted_dir r' = true → is_running r' = true.

(** The fields of a descriptor, that is, all but the two flags. *)
Definition same_descriptor (r1 r2 : routerinfo_t) : Prop :=
  address r1 = address r2 ∧ nickname r1 = nickname r2 ∧ addr r1 = addr r2 ∧
  or_port r1 = or_port r2 ∧ dir_port r1 = dir_port r2 ∧
  identity_digest r1 = identity_digest r2 ∧ onion_pkey r1 = onion_pkey r2 ∧
  identity_pkey r1 = identity_pkey r2 ∧ platform r1 = platform r2 ∧
  published_on r1 = published_on r2 ∧ exit_policy r1 = exit_policy r2.

(** A token names a router: by its nickname, or by its digest when the token
    is a well-formed hexadecimal digest. *)
Definition names_router (nick : string) (r : routerinfo_t) : Prop :=
  strcasecmp (nickname r) nick = 0%Z ∨
  ∃ digest, decode_hexdigest nick = Some digest ∧
            take DIGEST_LEN digest = take DIGEST_LEN (identity_digest r).

(** The router put in place of an older descriptor. *)
Definition replacement (router r : routerinfo_t) : routerinfo_t :=
  let router1 := if is_trusted_dir r then set_is_trusted_dir router true else router in
  if (strcasecmp (address r) (address router1) =? 0)%Z
  then set_addr router1 (addr r) else router1.

(** The kept router after a descriptor that is not newer. *)
Definition kept (router r : routerinfo_t) : routerinfo_t :=
  set_is_running (if is_trusted_dir router then set_is_trusted_dir r true else r)
                 (is_running router).

(** The router as the second loop leaves it. *)
Definition marked_up (r : routerinfo_t) : routerinfo_t :=
  if is_trusted_dir r then set_is_running r true else r.

End Statements.

(** ** The other functions of routerlist.c *)

(** Modelled from the spec: smartlist_del_keeporder of util.c, which removes
    the element at [idx] and keeps the order of the others (the record that
    follows moves into the vacated slot). *)
Definition smartlist_del_keeporder {A} (sl : list A) (idx : nat) : list A :=
  delete idx sl.

(** Modelled from the spec: smartlist_insert of util.c, which puts [val] at
    position [idx] and moves the later elements up by one. *)
Definition smartlist_insert {A} (sl : list A) (idx : nat) (val : A) : list A :=
  take idx sl ++ val :: drop idx sl.

Section RouterlistRest.
Context `{Ext : Externals}.

(** *** all_directory_servers_down *)

Fixpoint dirservers_down_loop (rs : list routerinfo_t) : outcome Z :=
  match rs with
  | [] => Done 1%Z
  | router :: rest =>
      if is_running router && is_trusted_dir router then
        tor_assert (0 <? dir_port router)%Z ;;! Done 0%Z
      else dirservers_down_loop rest
  end.

Definition all_directory_servers_down (routerlist : option routerlist_t) : outcome Z :=
  match routerlist with
  | None => Done 1%Z
  | Some rl => dirservers_down_loop (routers rl)
  end.

(** *** router_mark_as_down *)

(** The routerlist is read without a test for NULL, hence its type. *)
Definition router_mark_as_down (routerlist : routerlist_t) (digest : list Z)
    : routerlist_t :=
  match router_get_by_digest routerlist digest with
  | None => routerlist
  | Some (p, router) =>
      set_routers routerlist (<[p := set_is_running router false]> (routers routerlist))
  end.

(** *** routerlist_clear_trusted_directories *)

Definition routerlist_clear_trusted_directories (routerlist : option routerlist_t)
    : option routerlist_t :=
  match routerlist with
  | None => None
  | Some rl =>
      Some (set_routers rl (map (λ r, set_is_trusted_dir r false) (routers rl)))
  end.

(** *** router_pick_directory_server *)

(** [reload] stands for the branch on [options.RouterFile]: the call of
    router_load_routerlist_from_file or of config_assign_default_dirservers,
    with its return value and the routerlist that it leaves.  The two calls of
    router_pick_directory_server_impl have their own random draws.  The flag
    [has_fetched_directory] of main.c is not part of the state. *)
Definition router_pick_directory_server (seed1 seed2 : nat)
    (reload : option routerlist_t → Z * option routerlist_t)
    (routerlist : option routerlist_t) : outcome (option nat * option routerlist_t) :=
  res ←! router_pick_directory_server_impl seed1 routerlist ;
  match res.1 with
  | Some choice => Done (Some choice, res.2)
  | None =>
      let loaded := reload (routerlist_clear_trusted_directories res.2) in
      if (loaded.1 <? 0)%Z then Done (None, loaded.2)
      else router_pick_directory_server_impl seed2 loaded.2
  end.

(** *** Exit policies of the routers *)

Definition is_rejected (res : addr_policy_result) : bool :=
  match res with
  | ADDR_POLICY_REJECTED => true
  | _ => false
  end.

Fixpoint all_routers_reject_loop (addr port : Z) (rs : list routerinfo_t) : Z :=
  match rs with
  | [] => 1%Z
  | router :: rest =>
      if is_running router &&
         negb (is_rejected (router_compare_addr_to_exit_policy addr port
                              (exit_policy router)))
      then 0%Z
      else all_routers_reject_loop addr port rest
  end.

(** The routerlist is read without a test for NULL. *)
Definition router_exit_policy_all_routers_reject (routerlist : routerlist_t)
    (addr port : Z) : Z :=
  all_routers_reject_loop addr port (routers routerlist).

Definition router_exit_policy_rejects_all (router : routerinfo_t) : bool :=
  is_rejected (router_compare_addr_to_exit_policy 0 0 (exit_policy router)).

(** *** The loop of the two loaders *)

(** [SMARTLIST_FOREACH(new_list->routers, routerinfo_t *, r,
    router_add_to_routerlist(r))] *)
Definition add_all_to_routerlist (routerlist : routerlist_t)
    (new_routers : list routerinfo_t) : routerlist_t :=
  foldl (λ rl r, (router_add_to_routerlist rl r).2) routerlist new_routers.

(** [if (r->dir_port) r->is_trusted_dir = 1], for every router. *)
Definition trust_dirservers (rs : list routerinfo_t) : list routerinfo_t :=
  map (λ r, if (dir_port r =? 0)%Z then r else set_is_trusted_dir r true) rs.

End RouterlistRest.

(** What the resolution of the routerlist takes from the rest of the program:
    tor_lookup_hostname of util.c ([Some a] when it returns 0 and stores [a],
    [None] when it fails), ntohl, and router_get_my_routerinfo and
    router_is_me of router.c. *)
Class ResolveExternals `{Ext : Externals} := {
  tor_lookup_hostname : string → option Z;
  ntohl : Z → Z;
  router_get_my_routerinfo : option routerinfo_t;
  router_is_me : routerinfo_t → bool
}.

Section Resolve.
Context `{Res : ResolveExternals}.

(** router_resolve: [None] for the result -1, after which the caller drops
    the router; else the router with its address in host order. *)
Definition router_resolve (router : routerinfo_t) : option routerinfo_t :=
  match tor_lookup_hostname (address router) with
  | None => None
  | Some a => if (a =? 0)%Z then None else Some (set_addr router (ntohl a))
  end.

Lemma smartlist_del_keeporder_length {A} (sl : list A) (idx : nat) :
  (idx < length sl)%nat → length (smartlist_del_keeporder sl idx) = (length sl - 1)%nat.
Proof.
  intros Hlt. unfold smartlist_del_keeporder.
  destruct (lookup_lt_is_Some_2 sl idx Hlt) as [x Hx].
  apply list_elem_of_split_length in Hx as (l1 & l2 & -> & ->).
  rewrite delete_middle, !length_app. simpl. lia.
Qed.

(** The loop of router_resolve_routerlist; after a removal the same position
    is looked at again. *)
Equations? resolve_loop (rs : list routerinfo_t) (i : nat)
    : list routerinfo_t by wf (length rs - i)%nat lt :=
  resolve_loop rs i with inspect (rs !! i) => {
    | exist _ None _ => rs
    | exist _ (Some r) Hi with router_is_me r => {
        | true => resolve_loop (smartlist_del_keeporder rs i) i
        | false with (addr r =? 0)%Z => {
            | false => resolve_loop rs (S i)
            | true with router_resolve r => {
                | Some r' => resolve_loop (<[i := r']> rs) (S i)
                | None => resolve_loop (smartlist_del_keeporder rs i) i } } } }.
Proof.
  all: apply lookup_lt_Some in Hi.
  all: first [ rewrite smartlist_del_keeporder_length by done; lia
             | rewrite length_insert; lia
             | lia ].
Qed.

(** [rl] is the list that the function works on, that is, its argument or,
    when that is NULL, the global routerlist.  The return value is always 0. *)
Definition router_resolve_routerlist (rl : routerlist_t) : Z * routerlist_t :=
  match router_get_my_routerinfo with
  | Some r =>
      (0%Z, set_routers rl (resolve_loop (smartlist_insert (routers rl) 0 r) 1))
  | None => (0%Z, set_routers rl (resolve_loop (routers rl) 0))
  end.

(** router_load_routerlist_from_string; [parsed] is what
    router_parse_list_from_string of routerparse.c leaves in [new_list], or
    [None] when it reports an error. *)
Definition router_load_routerlist_from_string (parsed : option routerlist_t)
    (trusted : bool) (routerlist : option routerlist_t) : Z * option routerlist_t :=
  match parsed with
  | None => ((-1)%Z, routerlist)
  | Some new_list =>
      let new_list :=
        if trusted then set_routers new_list (trust_dirservers (routers new_list))
        else new_list in
      let routerlist :=
        match routerlist with
        | Some rl => add_all_to_routerlist rl (routers new_list)
        | None => new_list
        end in
      let res := router_resolve_routerlist routerlist in
      if (res.1 =? 0)%Z then (0%Z, Some res.2) else ((-1)%Z, Some res.2)
  end.

(** router_load_routerlist_from_directory, as far as the routerlist goes;
    [parsed] is what router_parse_routerlist_from_directory leaves in
    [new_list], or [None] when it reports an error.  The calls into dirserv.c
    and the check of the software version act on other state. *)
Definition router_load_routerlist_from_directory (parsed : option routerlist_t)
    (routerlist : option routerlist_t) : Z * option routerlist_t :=
  match parsed with
  | None => ((-1)%Z, routerlist)
  | Some new_list =>
      let routerlist :=
        match routerlist with
        | Some rl =>
            let rl1 := add_all_to_routerlist rl (routers new_list) in
            {| routers := routers rl1;
               software_versions := software_versions new_list;
               rl_published_on := rl_published_on new_list;
               running_routers_updated_on := running_routers_updated_on rl1 |}
        | None => new_list
        end in
      let res := router_resolve_routerlist routerlist in
      if (res.1 =? 0)%Z then (0%Z, Some res.2) else ((-1)%Z, Some res.2)
  end.

End Resolve.

(** ** More sample data and predicates *)

(** A resolver that knows one host; the host is big-endian; the program is the
    router with key 99. *)
Definition sample_resolver : @ResolveExternals sample_externals :=
  @Build_ResolveExternals sample_externals
    (λ host, if String.eqb host "host.example" then Some 16909060%Z else None)
    (λ a, a)
    (Some (sample_router "me" 99 400 0 true false))
    (λ r, (@identity_pkey sample_externals r =? 99)%Z).

(** A router that is running and whose policy is the clause [reject *:*]. *)
Definition closed_router : @routerinfo_t sample_externals :=
  @Build_routerinfo_t sample_externals "host.example" "closed" 0 9001 0
    (replicate DIGEST_LEN 6%Z) 0%Z 6%Z "Tor" 100 [reject_all 0 65535] true false.

(** A descriptor with the nickname of [moria_trusted] and another key. *)
Definition moria_other_key : @routerinfo_t sample_externals :=
  sample_router "Moria1" 5 300 0 true true.

(** A running-routers list published at time 10. *)
Definition fresh_running_routers : running_routers_t :=
  {| rr_published_on := 10; running_routers := ["moria1"; "!tor26"] |}.

(** The string in lower case. *)
Definition lower (s : string) : list Z := map tolower (String.list_ascii_of_string s).

Section MoreStatements.
Context `{Ext : Externals}.

(** No character of the string is the terminator of C strings. *)
Definition c_string (s : string) : Prop :=
  Forall (λ c, c ≠ "000"%char) (String.list_ascii_of_string s).

(** The nicknames of the routers are C strings. *)
Definition nicknames_c_strings (rs : list routerinfo_t) : Prop :=
  ∀ r, r ∈ rs → c_string (nickname r).

(** No two routers have the same nickname, up to case. *)
Definition nicknames_distinct (rs : list routerinfo_t) : Prop :=
  ∀ i j ri rj, rs !! i = Some ri → rs !! j = Some rj → i ≠ j →
    strcasecmp (nickname ri) (nickname rj) ≠ 0%Z.

(** A clause that matches every address and covers the port 0. *)
Definition covers_wildcard (tmpe : exit_policy_t) : Prop :=
  msk tmpe = 0%Z ∧ (prt_min tmpe ≤ 0 ≤ prt_max tmpe)%Z.

(** A clause that applies to a known address and a known port. *)
Definition clause_applies (addr port : Z) (tmpe : exit_policy_t) : Prop :=
  Z.land addr (msk tmpe) = Z.land (pol_addr tmpe) (msk tmpe) ∧
  (prt_min tmpe ≤ port ≤ prt_max tmpe)%Z.

(** What one step of the loop of router_resolve_routerlist makes of a router:
    dropped, kept, or kept with its address. *)
Definition resolved `{Res : !ResolveExternals} (r : routerinfo_t) : option routerinfo_t :=
  if router_is_me r then None
  else if (addr r =? 0)%Z then router_resolve r
  else Some r.

End MoreStatements.

(** ** Theorems on exit policies *)

Lemma port_in_range_spec port tmpe :
  port_in_range port tmpe = true ↔ (prt_min tmpe ≤ port ≤ prt_max tmpe)%Z.
Proof. unfold port_in_range. rewrite andb_true_iff, !Z.leb_le. tauto. Qed.

(** C1 (as the code has it): with an unknown address, a clause is a definite
    match exactly when its mask is 0 and the port is in its range, and a
    possible match exactly when the port is in its range and the mask is
    nonzero, or the port is outside its range and is the wildcard 0 (whatever
    the mask). *)
Theorem clause_match_unknown_addr (port : Z) (tmpe : exit_policy_t) :
  (fst (clause_match 0 port tmpe) = true ↔
     msk tmpe = 0%Z ∧ (prt_min tmpe ≤ port ≤ prt_max tmpe)%Z) ∧
  (snd (clause_match 0 port tmpe) = true ↔
     (msk tmpe ≠ 0%Z ∧ (prt_min tmpe ≤ port ≤ prt_max tmpe)%Z) ∨
     (port = 0%Z ∧ ¬ (prt_min tmpe ≤ port ≤ prt_max tmpe)%Z)).
Proof.
  rewrite <- !port_in_range_spec. unfold clause_match. simpl.
  destruct (port_in_range port tmpe) eqn:Hr;
    destruct (Z.eqb_spec (msk tmpe) 0); destruct (Z.eqb_spec port 0);
    simpl; split; split; intros; try tauto; try congruence;
    intuition congruence.
Qed.

(** C1, counterexample: a clause with a nonzero mask and range 80-80 is a
    possible match for the wildcard port, which the claim's condition
    excludes. *)
Lemma clause_match_unknown_addr_counterexample :
  ¬ (∀ port tmpe,
       snd (clause_match 0 port tmpe) = true ↔
       spec_possible_match_unknown_addr port tmpe).
Proof.
  intros H. destruct (H 0%Z accept_1_2_3_4_port_80) as [H1 _].
  destruct (H1 eq_refl) as [[_ Hr] | [Hm _]]; [discriminate Hr | discriminate Hm].
Qed.

(** C2: the four cases of the policy [accept 1.2.3.4/32:80, reject *:*], for
    every port range of the second clause that covers the ports asked for. *)
Theorem compare_addr_two_rule_policy (lo hi : Z) :
  (lo ≤ 80)%Z → (443 ≤ hi)%Z →
  let rules := [accept_1_2_3_4_port_80; reject_all lo hi] in
  router_compare_addr_to_exit_policy 16909060 80 rules = ADDR_POLICY_ACCEPTED ∧
  router_compare_addr_to_exit_policy 16909060 81 rules = ADDR_POLICY_REJECTED ∧
  router_compare_addr_to_exit_policy 0 80 rules = ADDR_POLICY_UNKNOWN ∧
  router_compare_addr_to_exit_policy 0 443 rules = ADDR_POLICY_REJECTED.
Proof.
  intros Hlo Hhi rules.
  assert (Hall : ∀ addr port, (80 ≤ port ≤ 443)%Z →
            clause_match addr port (reject_all lo hi) = (true, false)).
  { intros addr port Hp. unfold clause_match.
    replace (port_in_range port (reject_all lo hi)) with true
      by (symmetry; apply port_in_range_spec; simpl; lia).
    simpl. rewrite !Z.land_0_r. simpl. by destruct (addr =? 0)%Z. }
  unfold router_compare_addr_to_exit_policy, rules.
  split_and!.
  - reflexivity.
  - cbn [compare_addr_loop].
    change (clause_match 16909060 81 accept_1_2_3_4_port_80) with (false, false).
    cbv beta iota. by rewrite Hall by lia.
  - cbn [compare_addr_loop].
    change (clause_match 0 80 accept_1_2_3_4_port_80) with (false, true).
    cbv beta iota. by rewrite Hall by lia.
  - cbn [compare_addr_loop].
    change (clause_match 0 443 accept_1_2_3_4_port_80) with (false, false).
    cbv beta iota. by rewrite Hall by lia.
Qed.

Lemma compare_addr_two_rule_policy_witness :
  let rules := [accept_1_2_3_4_port_80; reject_all 0 65535] in
  router_compare_addr_to_exit_policy 16909060 80 rules = ADDR_POLICY_ACCEPTED ∧
  router_compare_addr_to_exit_policy 16909060 81 rules = ADDR_POLICY_REJECTED ∧
  router_compare_addr_to_exit_policy 0 80 rules = ADDR_POLICY_UNKNOWN ∧
  router_compare_addr_to_exit_policy 0 443 rules = ADDR_POLICY_REJECTED.
Proof. apply (compare_addr_two_rule_policy 0 65535); lia. Defined.

(** ** Theorems on the routerlist *)

Section RouterlistFacts.
Context `{Ext : Externals}.

(** *** router_add_to_routerlist *)

(** The loop acts on the first router with the nickname, and on no other. *)
Lemma add_to_routers_first_match (router r : routerinfo_t) (rs : list routerinfo_t) (i : nat) :
  rs !! i = Some r →
  (∀ j r', (j < i)%nat → rs !! j = Some r' →
     strcasecmp (nickname router) (nickname r') ≠ 0%Z) →
  strcasecmp (nickname router) (nickname r) = 0%Z →
  add_to_routers router rs =
    if (crypto_pk_cmp_keys (identity_pkey router) (identity_pkey r) =? 0)%Z then
      if (published_on r <? published_on router)%Z
      then (0%Z, <[i := replacement router r]> rs)
      else ((-1)%Z, <[i := kept router r]> rs)
    else ((-1)%Z, rs).
Proof.
  revert i. induction rs as [|r0 rest IH]; intros i Hi Hfirst Hnick; [done|].
  destruct i as [|i]; simpl in Hi.
  - injection Hi as ->. simpl. rewrite Hnick. simpl.
    destruct (_ =? 0)%Z; [|done]. by destruct (_ <? _)%Z.
  - simpl. destruct (Z.eqb_spec (strcasecmp (nickname router) (nickname r0)) 0) as [E|_].
    { exfalso. by apply (Hfirst 0%nat r0); [lia| |]. }
    rewrite (IH i Hi); [|intros j r' Hj Hr'; apply (Hfirst (S j) r'); [lia|done]|done].
    destruct (_ =? 0)%Z; [|done]. by destruct (_ <? _)%Z.
Qed.

(** Whatever is added, a position of the list keeps a router of the same
    key, and keeps the trust that it had. *)
Lemma add_to_routers_keeps_trust (router r : routerinfo_t) (rs : list routerinfo_t) (i : nat) :
  rs !! i = Some r →
  ∃ r', (add_to_routers router rs).2 !! i = Some r' ∧
        (is_trusted_dir r = true → is_trusted_dir r' = true) ∧
        (identity_pkey r' = identity_pkey r ∨
         crypto_pk_cmp_keys (identity_pkey r') (identity_pkey r) = 0%Z).
Proof.
  revert i. induction rs as [|r0 rest IH]; intros i Hi; [done|].
  simpl. destruct (strcasecmp (nickname router) (nickname r0) =? 0)%Z.
  - destruct (Z.eqb_spec (crypto_pk_cmp_keys (identity_pkey router) (identity_pkey r0)) 0)
      as [Hk|Hk].
    + destruct (published_on r0 <? published_on router)%Z; simpl;
        (destruct i as [|i]; simpl in *; [injection Hi as ->|by eauto]).
      * eexists; split; [done|]. split.
        -- intros ->. by destruct (_ =? 0)%Z.
        -- right. by destruct (is_trusted_dir r), (_ =? 0)%Z.
      * eexists; split; [done|]. split.
        -- intros Ht. simpl. by destruct (is_trusted_dir router).
        -- left. by destruct (is_trusted_dir router).
    + simpl. eauto.
  - simpl. destruct i as [|i]; simpl in *; [injection Hi as ->; eauto|].
    by apply IH.
Qed.

(** C3: when the first router with the nickname of the incoming descriptor
    has the same identity key and the descriptor is not newer, the call returns
    -1, the list keeps that router with its descriptor, and the router's
    [is_running] becomes the one of the incoming descriptor; an older
    descriptor that says "not running" makes a running router not running. *)
Theorem add_older_descriptor_sets_is_running
    (routerlist : routerlist_t) (router r : routerinfo_t) (i : nat) :
  routers routerlist !! i = Some r →
  (∀ j r', (j < i)%nat → routers routerlist !! j = Some r' →
     strcasecmp (nickname router) (nickname r') ≠ 0%Z) →
  strcasecmp (nickname router) (nickname r) = 0%Z →
  crypto_pk_cmp_keys (identity_pkey router) (identity_pkey r) = 0%Z →
  (published_on router ≤ published_on r)%Z →
  ∃ r',
    router_add_to_routerlist routerlist router =
      ((-1)%Z, set_routers routerlist (<[i := r']> (routers routerlist))) ∧
    same_descriptor r' r ∧
    is_running r' = is_running router ∧
    is_trusted_dir r' = is_trusted_dir r || is_trusted_dir router ∧
    (is_running r = true → is_running router = false → is_running r' = false).
Proof.
  intros Hi Hfirst Hnick Hkey Hpub. exists (kept router r).
  unfold router_add_to_routerlist.
  rewrite (add_to_routers_first_match router r _ i Hi Hfirst Hnick), Hkey.
  simpl. destruct (Z.ltb_spec (published_on r) (published_on router)); [lia|].
  simpl. split_and!; try done.
  - unfold kept, same_descriptor. by destruct (is_trusted_dir router).
  - unfold kept. simpl. destruct (is_trusted_dir router); simpl; [|by rewrite orb_false_r].
    by rewrite orb_true_r.
Qed.

(** C4: a router that is trusted stays trusted through every call of
    router_add_to_routerlist: after the call its position holds a router with
    the same identity key that is trusted, whether the incoming descriptor is
    newer or older, trusted or not. *)
Theorem add_keeps_trusted_dir
    (routerlist : routerlist_t) (router r : routerinfo_t) (i : nat) :
  routers routerlist !! i = Some r →
  is_trusted_dir r = true →
  ∃ r', routers (router_add_to_routerlist routerlist router).2 !! i = Some r' ∧
        is_trusted_dir r' = true ∧
        (identity_pkey r' = identity_pkey r ∨
         crypto_pk_cmp_keys (identity_pkey r') (identity_pkey r) = 0%Z).
Proof.
  intros Hi Ht. destruct (add_to_routers_keeps_trust router r _ i Hi) as (r' & H1 & H2 & H3).
  exists r'. simpl. auto.
Qed.

(** *** routerlist_update_from_runningrouters *)

(** C9: a running-routers list that is not newer than the directory, or not
    newer than the last running-routers list, changes nothing: the routerlist,
    with every router and both dates, is the one given. *)
Theorem stale_runningrouters_change_nothing (l : routerlist_t) (rr : running_routers_t) :
  (rr_published_on rr ≤ rl_published_on l)%Z ∨
  (rr_published_on rr ≤ running_routers_updated_on l)%Z →
  routerlist_update_from_runningrouters (Some l) rr = Some l.
Proof.
  intros H. unfold routerlist_update_from_runningrouters.
  destruct (Z.leb_spec (rr_published_on rr) (rl_published_on l)); [done|].
  destruct (Z.leb_spec (rr_published_on rr) (running_routers_updated_on l)); [done|].
  lia.
Qed.


(** *** routerlist_remove_old_routers *)

Lemma smartlist_del_middle {A} (l1 l2 : list A) (x : A) :
  smartlist_del (l1 ++ x :: l2) (length l1) =
    match last l2 with
    | Some y => l1 ++ y :: take (length l2 - 1) l2
    | None => l1
    end.
Proof.
  unfold smartlist_del. rewrite last_app, last_cons.
  destruct (last l2) as [y|] eqn:Hl.
  - rewrite insert_app_r_alt, Nat.sub_diag by lia. simpl.
    rewrite length_app. simpl.
    rewrite take_app_ge by lia.
    replace (length l1 + S (length l2) - 1 - length l1)%nat with (S (length l2 - 1)).
    + done.
    + apply last_Some in Hl as [l' ->]. rewrite length_app. simpl. lia.
  - apply last_None in Hl. subst l2. simpl.
    rewrite insert_app_r_alt, Nat.sub_diag by lia. simpl.
    rewrite length_app. simpl.
    replace (length l1 + 1 - 1)%nat with (length l1) by lia.
    by rewrite take_app_length.
Qed.

Lemma smartlist_del_spec {A} (sl : list A) (idx : nat) (x : A) :
  sl !! idx = Some x →
  take idx (smartlist_del sl idx) = take idx sl ∧
  drop idx (smartlist_del sl idx) ≡ₚ drop (S idx) sl.
Proof.
  intros Hx. apply list_elem_of_split_length in Hx as (l1 & l2 & -> & ->).
  rewrite smartlist_del_middle.
  rewrite take_app_length. rewrite (cons_middle x l1 l2), app_assoc.
  rewrite drop_app_length' by (rewrite length_app; simpl; lia).
  destruct (last l2) as [y|] eqn:Hl.
  - rewrite take_app_length, drop_app_length. split; [done|].
    apply last_Some in Hl as [l' ->]. rewrite length_app. simpl.
    replace (length l' + 1 - 1)%nat with (length l') by lia.
    rewrite take_app_length. by rewrite Permutation_cons_append.
  - apply last_None in Hl. subst l2.
    rewrite take_ge, drop_ge by lia. done.
Qed.

Lemma remove_old_loop_spec (cutoff : Z) (rs : list routerinfo_t) (i : nat) :
  remove_old_loop cutoff rs i ≡ₚ
  take i rs ++ filter (λ r, too_old cutoff r = false) (drop i rs).
Proof.
  funelim (remove_old_loop cutoff rs i).
  - pose proof (lookup_ge_None_1 _ _ e). by rewrite take_ge, drop_ge, app_nil_r by lia.
  - match goal with IH : remove_old_loop _ _ _ ≡ₚ _ |- _ => rewrite IH end.
    destruct (smartlist_del_spec rs i router Hi) as [-> ->].
    rewrite (drop_S rs router i Hi), filter_cons_False; [done|].
    by rewrite Heq.
  - match goal with IH : remove_old_loop _ _ _ ≡ₚ _ |- _ => rewrite IH end.
    rewrite (take_S_r rs i router Hi), (drop_S rs router i Hi).
    rewrite filter_cons_True by done. by rewrite <- app_assoc.
Qed.

(** C6: the routers that routerlist_remove_old_routers leaves are, up to
    their order, the routers that are not both published before
    [now - ROUTER_MAX_AGE] and without a directory port; a router with a
    directory port is kept however old it is.  The rest of the routerlist is
    not touched. *)
Theorem remove_old_routers_exact (now : Z) (rl : routerlist_t) :
  ∃ rl',
    routerlist_remove_old_routers now (Some rl) = Some rl' ∧
    routers rl' ≡ₚ
      filter (λ r, ¬ ((published_on r < now - ROUTER_MAX_AGE)%Z ∧ dir_port r = 0%Z))
             (routers rl) ∧
    rl' = set_routers rl (routers rl') ∧
    (∀ r, r ∈ routers rl → (0 < dir_port r)%Z → r ∈ routers rl').
Proof.
  eexists. split; [done|]. simpl.
  assert (Hperm : remove_old_loop (now - ROUTER_MAX_AGE) (routers rl) 0 ≡ₚ
    filter (λ r, ¬ ((published_on r < now - ROUTER_MAX_AGE)%Z ∧ dir_port r = 0%Z))
           (routers rl)).
  { rewrite remove_old_loop_spec. rewrite take_0, drop_0. simpl.
    erewrite list_filter_iff; [done|]. intros r. unfold too_old.
    rewrite andb_false_iff, Z.ltb_ge, Z.eqb_neq. lia. }
  split_and!; [done|done|].
  intros r Hr Hd. rewrite Hperm. apply list_elem_of_filter. split; [lia|done].
Qed.

(** *** router_choose_random_node *)

Lemma smartlist_choose_elem {A} (seed : nat) (sl : list A) (x : A) :
  smartlist_choose seed sl = Some x → x ∈ sl.
Proof.
  unfold smartlist_choose. destruct sl as [|a l]; [done|].
  intros H. by apply list_elem_of_lookup_2 in H.
Qed.

Lemma smartlist_choose_nonempty {A} (seed : nat) (sl : list A) :
  sl ≠ [] → is_Some (smartlist_choose seed sl).
Proof.
  unfold smartlist_choose. destruct sl as [|a l]; [done|]. intros _.
  apply lookup_lt_is_Some_2. apply Nat.mod_upper_bound. done.
Qed.

Lemma smartlist_subtract_elem (sl1 sl2 : list nat) (p : nat) :
  p ∈ smartlist_subtract sl1 sl2 ↔ p ∈ sl1 ∧ p ∉ sl2.
Proof. unfold smartlist_subtract. rewrite list_elem_of_filter. tauto. Qed.

Lemma subtract_if_given_elem (sl : list nat) (excludedsmartlist : option (list nat)) (p : nat) :
  p ∈ subtract_if_given sl excludedsmartlist ↔
  p ∈ sl ∧ ∀ ex, excludedsmartlist = Some ex → p ∉ ex.
Proof.
  destruct excludedsmartlist as [ex|]; simpl.
  - rewrite smartlist_subtract_elem. split.
    + intros [? ?]. split; [done|]. by intros ? [= <-].
    + intros [? Hex]. split; [done|]. by apply Hex.
  - split; [|by intros [? _]]. intros ?. by split.
Qed.

(** A router that a lookup returns is the router at the returned position. *)
Lemma router_get_by_nickname_lookup (routerlist : option routerlist_t)
    (nick : string) (p : nat) (r : routerinfo_t) :
  router_get_by_nickname routerlist nick = Some (p, r) →
  ∃ rl, routerlist = Some rl ∧ routers rl !! p = Some r.
Proof.
  unfold router_get_by_nickname, router_get_by_hexdigest, router_get_by_digest.
  destruct routerlist as [rl|]; [|done]. intros H. exists rl. split; [done|].
  destruct (first_char_is "$" nick).
  - destruct (decode_hexdigest _); [|done].
    by destruct (proj1 (list_find_Some _ _ _ _) H) as [? _].
  - by destruct (proj1 (list_find_Some _ _ _ _) H) as [? _].
Qed.

Lemma running_routers_from_elem (ORPort : Z) (connected : list Z → bool)
    (i : nat) (rs : list routerinfo_t) (p : nat) :
  p ∈ running_routers_from ORPort connected i rs →
  (i ≤ p)%nat ∧ ∃ r, rs !! (p - i)%nat = Some r ∧ is_running r = true.
Proof.
  revert i. induction rs as [|r0 rest IH]; intros i; simpl; [by intros ?%elem_of_nil|].
  assert (Hrest : p ∈ running_routers_from ORPort connected (S i) rest →
    (i ≤ p)%nat ∧ ∃ r, (r0 :: rest) !! (p - i)%nat = Some r ∧ is_running r = true).
  { intros [Hle (r & Hr & Hrun)]%IH. split; [lia|]. exists r. split; [|done].
    replace (p - i)%nat with (S (p - S i)) by lia. done. }
  destruct (is_running r0) eqn:Hr0; simpl; [|done].
  destruct (_ || _); [|done].
  intros [->|Hp]%elem_of_cons; [|by auto].
  split; [lia|]. exists r0. by rewrite Nat.sub_diag.
Qed.

Lemma max_token_length_scan (nicklist : string) (cur : nat) :
  max_token_length cur nicklist =
    (cur + String.length (scan_nick nicklist).1) `max`
    max_token_length 0 (scan_nick nicklist).2.
Proof.
  revert cur. induction nicklist as [|c rest IH]; intros cur; simpl; [lia|].
  destruct (is_list_sep c) eqn:Hc; simpl.
  - rewrite Hc. lia.
  - rewrite IH. lia.
Qed.

Lemma max_token_length_skip (nicklist : string) :
  max_token_length 0 (skip_seps nicklist) = max_token_length 0 nicklist.
Proof.
  induction nicklist as [|c rest IH]; simpl; [done|].
  destruct (is_list_sep c) eqn:Hc; simpl; [by rewrite IH|by rewrite Hc].
Qed.

(** The loop is defined exactly when every token fits into [nick]; it then
    appends routers of the routerlist that are running. *)
Lemma add_nickname_loop_spec (routerlist : option routerlist_t) (sl : list nat)
    (start : string) :
  ((max_token_length 0 start ≤ MAX_NICKNAME_LEN)%nat →
   ∃ added, add_nickname_loop routerlist sl start = Some (sl ++ added) ∧
     (routerlist = None → added = []) ∧
     ∀ p, p ∈ added →
       ∃ rl r, routerlist = Some rl ∧ routers rl !! p = Some r ∧ is_running r = true) ∧
  ((MAX_NICKNAME_LEN < max_token_length 0 start)%nat →
   add_nickname_loop routerlist sl start = None).
Proof.
  funelim (add_nickname_loop routerlist sl start).
  { split; [|simpl; lia]. intros _. exists []. rewrite app_nil_r.
    split_and!; [done|done|by intros p ?%elem_of_nil]. }
  rewrite (max_token_length_scan (String c rest) 0), Nat.add_0_l.
  destruct (Nat.leb_spec (String.length (scan_nick (String c rest)).1) MAX_NICKNAME_LEN)
    as [Hfit|Hlong]; [|split; [lia|done]].
  match goal with IH : _ ∧ _ |- _ => destruct IH as [IHfit IHlong] end.
  rewrite max_token_length_skip in IHfit, IHlong.
  split; [|intros Hmax; apply IHlong; lia].
  intros Hmax. destruct IHfit as (added & Heq & Hnull & Hadded); [lia|].
  rewrite Heq. clear Heq.
  destruct (router_get_by_nickname routerlist _) as [[q r]|] eqn:E; [|by exists added].
  destruct (is_running r) eqn:Er; [|by exists added].
  apply router_get_by_nickname_lookup in E as (rl & -> & E).
  exists (q :: added). split_and!.
  - by rewrite <- app_assoc.
  - done.
  - intros p [->|Hp]%elem_of_cons; [by exists rl, r|by apply Hadded].
Qed.

Lemma add_nickname_list_spec (routerlist : option routerlist_t) (sl : list nat)
    (nicklist : string) :
  (nicknames_fit nicklist →
   ∃ added, add_nickname_list_to_smartlist routerlist sl nicklist = Some (sl ++ added) ∧
     (routerlist = None → added = []) ∧
     ∀ p, p ∈ added →
       ∃ rl r, routerlist = Some rl ∧ routers rl !! p = Some r ∧ is_running r = true) ∧
  (¬ nicknames_fit nicklist →
   add_nickname_list_to_smartlist routerlist sl nicklist = None).
Proof.
  unfold nicknames_fit, add_nickname_list_to_smartlist.
  destruct (add_nickname_loop_spec routerlist sl (skip_seps nicklist)) as [Hfit Hlong].
  rewrite max_token_length_skip in Hfit, Hlong.
  split; [done|]. intros Hno. apply Hlong. lia.
Qed.

(** The routers that a defined call lists, from the empty smartlist, are
    running routers of the routerlist. *)
Lemma add_nickname_list_running (routerlist : option routerlist_t)
    (nicklist : string) (res : list nat) (p : nat) :
  add_nickname_list_to_smartlist routerlist [] nicklist = Some res → p ∈ res →
  ∃ rl r, routerlist = Some rl ∧ routers rl !! p = Some r ∧ is_running r = true.
Proof.
  intros Hres Hp.
  destruct (add_nickname_list_spec routerlist [] nicklist) as [Hfit Hlong].
  destruct (Nat.le_gt_cases (max_token_length 0 nicklist) MAX_NICKNAME_LEN) as [Hf|Hf].
  - destruct (Hfit Hf) as (added & Heq & _ & Hadded).
    rewrite Heq in Hres. injection Hres as <-. by apply Hadded.
  - rewrite Hlong in Hres; [done|]. unfold nicknames_fit. lia.
Qed.

(** What the call returns when both lists of nicknames fit. *)
Lemma choose_random_node_unfold (seed : nat) (ORPort : Z)
    (connected : list Z → bool) (routerlist : option routerlist_t)
    (preferred excluded : string) (excludedsmartlist : option (list nat))
    (excludednodes sl : list nat) :
  add_nickname_list_to_smartlist routerlist [] excluded = Some excludednodes →
  add_nickname_list_to_smartlist routerlist [] preferred = Some sl →
  router_choose_random_node seed ORPort connected routerlist
    preferred excluded excludedsmartlist =
  Some match smartlist_choose seed
               (subtract_if_given (smartlist_subtract sl excludednodes)
                  excludedsmartlist) with
       | Some choice => Some choice
       | None =>
           smartlist_choose seed
             (subtract_if_given
                (smartlist_subtract
                   (router_add_running_routers_to_smartlist ORPort connected
                      routerlist []) excludednodes) excludedsmartlist)
       end.
Proof.
  intros Hex Hpref. unfold router_choose_random_node. rewrite Hex, Hpref.
  by destruct (smartlist_choose seed _).
Qed.

(** A router that is returned is running and not excluded. *)
Lemma choose_random_node_sound (seed : nat) (ORPort : Z)
    (connected : list Z → bool) (routerlist : option routerlist_t)
    (preferred excluded : string) (excludedsmartlist : option (list nat))
    (excludednodes : list nat) (p : nat) :
  add_nickname_list_to_smartlist routerlist [] excluded = Some excludednodes →
  router_choose_random_node seed ORPort connected routerlist
    preferred excluded excludedsmartlist = Some (Some p) →
  (p ∉ excludednodes) ∧
  (∀ ex, excludedsmartlist = Some ex → p ∉ ex) ∧
  ∃ rl r, routerlist = Some rl ∧ routers rl !! p = Some r ∧ is_running r = true.
Proof.
  intros Hex.
  destruct (add_nickname_list_to_smartlist routerlist [] preferred) as [sl|] eqn:Hpref.
  2: { unfold router_choose_random_node. by rewrite Hex, Hpref. }
  rewrite (choose_random_node_unfold _ _ _ _ _ _ _ _ _ Hex Hpref).
  destruct (smartlist_choose seed (subtract_if_given (smartlist_subtract sl excludednodes)
              excludedsmartlist)) as [c|] eqn:Hfirst.
  - intros [= <-]. apply smartlist_choose_elem in Hfirst.
    apply subtract_if_given_elem in Hfirst as [Hc Hexs].
    apply smartlist_subtract_elem in Hc as [Hc Hnodes].
    split_and!; [done|done|]. by apply (add_nickname_list_running _ _ _ _ Hpref).
  - intros [= Hsecond]. apply smartlist_choose_elem in Hsecond.
    apply subtract_if_given_elem in Hsecond as [Hc Hexs].
    apply smartlist_subtract_elem in Hc as [Hc Hnodes].
    split_and!; [done|done|].
    unfold router_add_running_routers_to_smartlist in Hc.
    destruct routerlist as [rl|]; [|by apply elem_of_nil in Hc].
    simpl in Hc. apply running_routers_from_elem in Hc as [_ (r & Hr & Hrun)].
    rewrite Nat.sub_0_r in Hr. eauto.
Qed.



(** *** router_pick_directory_server_impl *)

Lemma running_dirservers_none (i : nat) (rs : list routerinfo_t) :
  (∀ r, r ∈ rs → ¬ (is_trusted_dir r = true ∧ is_running r = true)) →
  running_dirservers i rs = Done [].
Proof.
  revert i. induction rs as [|r0 rest IH]; intros i Hnone; [done|]. simpl.
  destruct (is_running r0) eqn:Hrun, (is_trusted_dir r0) eqn:Ht; simpl;
    try (apply IH; intros r Hr; apply Hnone; by apply list_elem_of_further).
  destruct (Hnone r0); [apply list_elem_of_here|done].
Qed.

Lemma mark_dirservers_up_spec (i : nat) (rs : list routerinfo_t) :
  trusted_have_dir_port rs →
  ∃ sl, mark_dirservers_up i rs = Done (map marked_up rs, sl) ∧
        ∀ p, p ∈ sl ↔ (i ≤ p)%nat ∧ ∃ r, rs !! (p - i)%nat = Some r ∧ is_trusted_dir r = true.
Proof.
  revert i. induction rs as [|r0 rest IH]; intros i Hinv.
  { exists []. split; [done|]. intros p. split; [by intros ?%elem_of_nil|].
    intros [_ (r & Hr & _)]. by rewrite lookup_nil in Hr. }
  destruct (IH (S i)) as (sl & Hmark & Hsl).
  { intros r Hr. apply Hinv. by apply list_elem_of_further. }
  cbn [mark_dirservers_up]. rewrite Hmark.
  assert (Hmap : ∀ b, is_trusted_dir r0 = b →
    map marked_up (r0 :: rest) =
    (if b then set_is_running r0 true else r0) :: map marked_up rest).
  { intros b Hb. simpl. unfold marked_up at 1. by rewrite Hb. }
  destruct (is_trusted_dir r0) eqn:Ht; rewrite (Hmap _ eq_refl); cbn [bind_outcome fst snd].
  - assert (Hport : (0 <? dir_port r0)%Z = true).
    { apply Z.ltb_lt. apply Hinv; [apply list_elem_of_here|done]. }
    rewrite Hport. cbn [tor_assert bind_outcome]. exists (i :: sl). split; [done|].
    intros p. rewrite elem_of_cons, Hsl. split.
    + intros [->|[Hle (r & Hr & Hrt)]].
      * split; [lia|]. exists r0. by rewrite Nat.sub_diag.
      * split; [lia|]. exists r. split; [|done].
        by replace (p - i)%nat with (S (p - S i)) by lia.
    + intros [Hle (r & Hr & Hrt)]. destruct (decide (p = i)) as [->|Hne]; [by left|].
      right. split; [lia|]. exists r. split; [|done].
      by replace (p - i)%nat with (S (p - S i)) in Hr by lia.
  - exists sl. split; [done|]. intros p. rewrite Hsl. split.
    + intros [Hle (r & Hr & Hrt)]. split; [lia|]. exists r. split; [|done].
      by replace (p - i)%nat with (S (p - S i)) by lia.
    + intros [Hle (r & Hr & Hrt)].
      destruct (decide (p = i)) as [->|Hne].
      { rewrite Nat.sub_diag in Hr. simpl in Hr. congruence. }
      split; [lia|]. exists r. split; [|done].
      by replace (p - i)%nat with (S (p - S i)) in Hr by lia.
Qed.


(** *** router_get_by_nickname *)

Lemma nickname_or_digest_is_spec (nick : string) (r : routerinfo_t) :
  nickname_or_digest_is nick (decode_hexdigest nick) r = true ↔ names_router nick r.
Proof.
  unfold nickname_or_digest_is, names_router, digest_eq.
  rewrite orb_true_iff, Z.eqb_eq. split.
  - intros [?|H]; [by left|]. right.
    destruct (decode_hexdigest nick) as [d|]; [|done].
    exists d. split; [done|]. by apply bool_decide_eq_true in H.
  - intros [?|(d & -> & H)]; [by left|]. right. by apply bool_decide_eq_true.
Qed.

(** For a token without the [$] marker, the lookup returns the first router,
    in the order of the list, that the token names by nickname or by digest,
    and NULL when the token names no router; when the token is not a
    well-formed hexadecimal digest, that is the first router whose nickname
    matches. *)
Lemma get_by_nickname_first_named (rl : routerlist_t) (nick : string) :
  first_char_is "$" nick = false →
  (∀ p r, router_get_by_nickname (Some rl) nick = Some (p, r) ↔
     routers rl !! p = Some r ∧ names_router nick r ∧
     ∀ j r', (j < p)%nat → routers rl !! j = Some r' → ¬ names_router nick r') ∧
  (router_get_by_nickname (Some rl) nick = None ↔
     ∀ r, r ∈ routers rl → ¬ names_router nick r) ∧
  (decode_hexdigest nick = None →
   ∀ p r, routers rl !! p = Some r → strcasecmp (nickname r) nick = 0%Z →
     (∀ j r', (j < p)%nat → routers rl !! j = Some r' →
        strcasecmp (nickname r') nick ≠ 0%Z) →
     router_get_by_nickname (Some rl) nick = Some (p, r)).
Proof.
  intros Hmark. unfold router_get_by_nickname. rewrite Hmark.
  assert (Hsome : ∀ p r,
    list_find (λ router, nickname_or_digest_is nick (decode_hexdigest nick) router = true)
              (routers rl) = Some (p, r) ↔
    routers rl !! p = Some r ∧ names_router nick r ∧
    ∀ j r', (j < p)%nat → routers rl !! j = Some r' → ¬ names_router nick r').
  { intros p r. rewrite list_find_Some, nickname_or_digest_is_spec.
    split; intros (H1 & H2 & H3); split_and!; try done.
    - intros j r' Hj Hr'. rewrite <- nickname_or_digest_is_spec. by apply (H3 j r').
    - intros j r' Hr' Hj. rewrite nickname_or_digest_is_spec. by apply (H3 j r'). }
  split_and!; [done| |].
  - rewrite list_find_None, Forall_forall. split; intros H r Hr.
    + rewrite <- nickname_or_digest_is_spec. by apply H.
    + rewrite nickname_or_digest_is_spec. by apply H.
  - intros Hnodigest p r Hr Hnick Hfirst. apply Hsome. split_and!; [done|by left|].
    intros j r' Hj Hr' [Hn|(d & Hd & _)]; [by apply (Hfirst j r')|congruence].
Qed.

Lemma tolower_nonzero (c : ascii) : c ≠ "000"%char → tolower c ≠ 0%Z.
Proof.
  intros Hc Hz. apply Hc. unfold tolower, char_code in Hz.
  assert (H0 : N_of_ascii c = 0%N).
  { destruct (_ && _) in Hz; lia. }
  rewrite <- (ascii_N_embedding c), H0. reflexivity.
Qed.

Lemma hex_decode_digit_not_nul (c : ascii) (v : Z) :
  hex_decode_digit c = Some v → c ≠ "000"%char.
Proof. intros H ->. discriminate H. Qed.

Lemma base16_decode_c_string (src : string) (dest : list Z) :
  base16_decode src = Some dest → c_string src.
Proof.
  assert (Hind : ∀ n s d, (String.length s ≤ n)%nat →
            base16_decode s = Some d → c_string s).
  { induction n as [|n IH]; intros s d Hlen Hdec.
    - destruct s; [apply Forall_nil_2|simpl in Hlen; lia].
    - destruct s as [|c1 [|c2 rest]]; [apply Forall_nil_2|done|].
      simpl in Hdec, Hlen.
      destruct (hex_decode_digit c1) as [v1|] eqn:H1; [|done].
      destruct (hex_decode_digit c2) as [v2|] eqn:H2; [|done].
      destruct (base16_decode rest) as [d'|] eqn:Hrest; [|done].
      unfold c_string. simpl.
      apply Forall_cons_2; [by apply hex_decode_digit_not_nul in H1|].
      apply Forall_cons_2; [by apply hex_decode_digit_not_nul in H2|].
      apply (IH rest d'); [lia|done]. }
  by apply (Hind (String.length src) src dest).
Qed.

(** A string that compares equal to a C string is at least as long. *)
Lemma strcasecmp_length (s1 s2 : string) :
  strcasecmp s1 s2 = 0%Z → c_string s2 → (String.length s2 ≤ String.length s1)%nat.
Proof.
  unfold c_string. revert s2.
  induction s1 as [|c1 r1 IH]; intros [|c2 r2]; simpl; intros Hcmp Hc; try lia.
  - apply Forall_cons in Hc as [Hc _]. apply tolower_nonzero in Hc. lia.
  - apply Forall_cons in Hc as [_ Hc].
    destruct (Z.eqb_spec (tolower c1) (tolower c2)); [|lia].
    specialize (IH r2 Hcmp Hc). lia.
Qed.

(** A token that is the nickname of a router with a nickname of fewer than
    [HEX_DIGEST_LEN] characters is no hexadecimal digest. *)
Lemma nickname_is_no_hexdigest (name nick : string) :
  (String.length name < HEX_DIGEST_LEN)%nat →
  strcasecmp name nick = 0%Z → decode_hexdigest nick = None.
Proof.
  intros Hlen Hcmp. unfold decode_hexdigest.
  destruct (Nat.eqb_spec (String.length nick) HEX_DIGEST_LEN) as [E|E]; [|done].
  destruct (base16_decode nick) as [d|] eqn:Hdec; [|done].
  apply base16_decode_c_string in Hdec.
  pose proof (strcasecmp_length name nick Hcmp Hdec). lia.
Qed.


(** *** What keeps the invariant of the trusted dirservers *)

Lemma update_from_names_fields (router : routerinfo_t) (names : list string) :
  dir_port (update_from_names router names) = dir_port router ∧
  is_trusted_dir (update_from_names router names) = is_trusted_dir router.
Proof.
  induction names as [|name rest IH]; [done|]. simpl.
  destruct (negb _), (router_nickname_matches router name); simpl; done.
Qed.

Lemma remove_old_routers_keeps_dir_ports (now : Z) (rl rl' : routerlist_t) :
  trusted_have_dir_port (routers rl) →
  routerlist_remove_old_routers now (Some rl) = Some rl' →
  trusted_have_dir_port (routers rl').
Proof.
  intros Hinv [= <-]. simpl. intros r Hr. apply Hinv.
  rewrite remove_old_loop_spec, take_0, drop_0 in Hr. simpl in Hr.
  by apply list_elem_of_filter in Hr as [_ ?].
Qed.

Lemma update_from_runningrouters_keeps_dir_ports (l l' : routerlist_t)
    (rr : running_routers_t) :
  trusted_have_dir_port (routers l) →
  routerlist_update_from_runningrouters (Some l) rr = Some l' →
  trusted_have_dir_port (routers l').
Proof.
  intros Hinv. unfold routerlist_update_from_runningrouters.
  destruct (_ <=? _)%Z; [by intros [= <-]|].
  destruct (_ <=? _)%Z; [by intros [= <-]|].
  intros [= <-]. simpl. intros r [r0 [-> Hr0]]%list_elem_of_fmap.
  destruct (update_from_names_fields r0 (running_routers rr)) as [-> ->].
  by apply Hinv.
Qed.

Lemma marked_up_keeps_dir_ports (rs : list routerinfo_t) :
  trusted_have_dir_port rs → trusted_have_dir_port (map marked_up rs).
Proof.
  intros Hinv r [r0 [-> Hr0]]%list_elem_of_fmap. unfold marked_up.
  destruct (is_trusted_dir r0) eqn:E; simpl; [|by rewrite E].
  intros _. by apply Hinv.
Qed.

End RouterlistFacts.

(** ** The theorems at sample inputs *)

Lemma add_older_descriptor_sets_is_running_witness :
  ∃ r',
    router_add_to_routerlist (sample_list [moria_trusted; plain_router]) older_not_running =
      ((-1)%Z, set_routers (sample_list [moria_trusted; plain_router])
                 (<[1%nat := r']> [moria_trusted; plain_router])) ∧
    same_descriptor r' plain_router ∧
    is_running r' = false ∧
    is_trusted_dir r' = false ∧
    (is_running plain_router = true → is_running older_not_running = false →
     is_running r' = false).
Proof.
  apply (@add_older_descriptor_sets_is_running sample_externals
           (sample_list [moria_trusted; plain_router]) older_not_running plain_router 1).
  - reflexivity.
  - intros j r' Hj Hr'. assert (j = 0%nat) as -> by lia.
    injection Hr' as <-. vm_compute. discriminate.
  - reflexivity.
  - reflexivity.
  - vm_compute. discriminate.
Defined.

Lemma add_keeps_trusted_dir_witness :
  ∃ r', routers (router_add_to_routerlist (sample_list [moria_trusted])
                   moria_without_dir_port).2 !! 0%nat = Some r' ∧
        is_trusted_dir r' = true ∧
        (identity_pkey r' = identity_pkey moria_trusted ∨
         crypto_pk_cmp_keys (identity_pkey r') (identity_pkey moria_trusted) = 0%Z).
Proof.
  apply (@add_keeps_trusted_dir sample_externals (sample_list [moria_trusted])
           moria_without_dir_port moria_trusted 0); reflexivity.
Defined.

Lemma stale_runningrouters_change_nothing_witness :
  routerlist_update_from_runningrouters (Some (sample_list [moria_down]))
    sample_running_routers = Some (sample_list [moria_down]).
Proof.
  apply (@stale_runningrouters_change_nothing sample_externals
           (sample_list [moria_down]) sample_running_routers).
  left. simpl. lia.
Defined.

Lemma remove_old_routers_exact_witness :
  ∃ rl',
    routerlist_remove_old_routers 1000000 (Some (sample_list [old_router; old_dirserver]))
      = Some rl' ∧
    old_dirserver ∈ routers rl'.
Proof.
  destruct (@remove_old_routers_exact sample_externals 1000000
              (sample_list [old_router; old_dirserver])) as (rl' & Hrl' & _ & _ & Hkeep).
  exists rl'. split; [exact Hrl'|].
  apply Hkeep.
  - apply list_elem_of_further, list_elem_of_here.
  - simpl. lia.
Defined.





(** C5, the defect: both descriptors satisfy "trusted implies directory
    port", and so does the routerlist; after router_add_to_routerlist the
    routerlist holds a trusted dirserver without a directory port, and the
    assertion of router_pick_directory_server_impl fails.  This happens when a
    newer descriptor without a directory port inherits the trust of the router
    that it replaces, and when an older trusted descriptor passes its trust to
    a kept router without a directory port. *)
Theorem add_breaks_trusted_dir_port :
  (let res := router_add_to_routerlist (sample_list [moria_trusted]) moria_without_dir_port in
   trusted_have_dir_port [moria_trusted] ∧
   trusted_have_dir_port [moria_without_dir_port] ∧
   res.1 = 0%Z ∧
   ¬ trusted_have_dir_port (routers res.2) ∧
   ∀ seed, router_pick_directory_server_impl seed (Some res.2) = AssertionFailed) ∧
  (let res := router_add_to_routerlist (sample_list [plain_router]) older_trusted_descriptor in
   trusted_have_dir_port [plain_router] ∧
   trusted_have_dir_port [older_trusted_descriptor] ∧
   res.1 = (-1)%Z ∧
   ¬ trusted_have_dir_port (routers res.2) ∧
   ∀ seed, router_pick_directory_server_impl seed (Some res.2) = AssertionFailed).
Proof.
  assert (Hone : ∀ r : @routerinfo_t sample_externals,
            (is_trusted_dir r = true → (0 < dir_port r)%Z) → trusted_have_dir_port [r]).
  { intros r Hr r' ->%list_elem_of_singleton. exact Hr. }
  split; cbv zeta; split_and!.
  - apply Hone. intros _. simpl. lia.
  - apply Hone. intros Ht. discriminate Ht.
  - reflexivity.
  - intros Hinv. specialize (Hinv _ (list_elem_of_here _ _) eq_refl). vm_compute in Hinv.
    discriminate Hinv.
  - reflexivity.
  - apply Hone. intros Ht. discriminate Ht.
  - apply Hone. intros _. simpl. lia.
  - reflexivity.
  - intros Hinv. specialize (Hinv _ (list_elem_of_here _ _) eq_refl). vm_compute in Hinv.
    discriminate Hinv.
  - reflexivity.
Qed.

(** ** More theorems on exit policies *)

Lemma clause_match_known (addr port : Z) (tmpe : exit_policy_t) :
  addr ≠ 0%Z → port ≠ 0%Z →
  (clause_applies addr port tmpe → clause_match addr port tmpe = (true, false)) ∧
  (¬ clause_applies addr port tmpe → clause_match addr port tmpe = (false, false)).
Proof.
  intros Ha Hp. unfold clause_match, clause_applies.
  rewrite <- port_in_range_spec.
  destruct (Z.eqb_spec addr 0) as [|_]; [done|].
  destruct (Z.eqb_spec port 0) as [|_]; [done|].
  destruct (Z.eqb_spec (Z.land addr (msk tmpe)) (Z.land (pol_addr tmpe) (msk tmpe)));
    destruct (port_in_range port tmpe); split; intros H; try done;
    intuition congruence.
Qed.

Lemma clause_applies_or_not (addr port : Z) (tmpe : exit_policy_t) :
  clause_applies addr port tmpe ∨ ¬ clause_applies addr port tmpe.
Proof.
  unfold clause_applies.
  destruct (decide (Z.land addr (msk tmpe) = Z.land (pol_addr tmpe) (msk tmpe)));
    destruct (decide (prt_min tmpe ≤ port ≤ prt_max tmpe)%Z); tauto.
Qed.

(** X1: for a known address and a known port the answer is that of the first
    clause, in the order of the policy, whose masked address and port range
    cover the target; it is "accepted" when no clause does, and it is never
    "unknown". *)
Theorem compare_known_target_first_clause (addr port : Z) (policy : list exit_policy_t) :
  addr ≠ 0%Z → port ≠ 0%Z →
  (∀ i tmpe, policy !! i = Some tmpe → clause_applies addr port tmpe →
     (∀ j t, (j < i)%nat → policy !! j = Some t → ¬ clause_applies addr port t) →
     router_compare_addr_to_exit_policy addr port policy =
       match policy_type tmpe with
       | EXIT_POLICY_ACCEPT => ADDR_POLICY_ACCEPTED
       | EXIT_POLICY_REJECT => ADDR_POLICY_REJECTED
       end) ∧
  ((∀ t, t ∈ policy → ¬ clause_applies addr port t) →
     router_compare_addr_to_exit_policy addr port policy = ADDR_POLICY_ACCEPTED) ∧
  router_compare_addr_to_exit_policy addr port policy ≠ ADDR_POLICY_UNKNOWN.
Proof.
  intros Ha Hp. unfold router_compare_addr_to_exit_policy.
  induction policy as [|c rest IH]; [by split_and!|].
  destruct IH as (IH1 & IH2 & IH3).
  destruct (clause_match_known addr port c Ha Hp) as [Hyes Hno].
  cbn [compare_addr_loop].
  destruct (clause_applies_or_not addr port c) as [Hc|Hc].
  - rewrite (Hyes Hc). split_and!.
    + intros i tmpe Hi Happ Hfirst. destruct i as [|i].
      * injection Hi as <-. by destruct (policy_type c).
      * destruct (Hfirst 0%nat c); [lia|done|done].
    + intros Hnone. destruct (Hnone c); [apply list_elem_of_here|done].
    + by destruct (policy_type c).
  - rewrite (Hno Hc). split_and!.
    + intros i tmpe Hi Happ Hfirst. destruct i as [|i].
      * injection Hi as <-. done.
      * apply (IH1 i tmpe Hi Happ). intros j t Hj Ht. apply (Hfirst (S j) t); [lia|done].
    + intros Hnone. apply IH2. intros t Ht. apply Hnone. by apply list_elem_of_further.
    + done.
Qed.

Lemma compare_known_target_first_clause_witness :
  router_compare_addr_to_exit_policy 16909060 80
    [accept_1_2_3_4_port_80; reject_all 0 65535] = ADDR_POLICY_ACCEPTED.
Proof.
  destruct (compare_known_target_first_clause 16909060 80
              [accept_1_2_3_4_port_80; reject_all 0 65535]) as (Hfirst & _ & _);
    [discriminate|discriminate|].
  apply (Hfirst 0%nat accept_1_2_3_4_port_80).
  - reflexivity.
  - split; [reflexivity|simpl; lia].
  - intros j t Hj. lia.
Defined.

(** The loop answers "rejected" only at a reject clause that matches
    definitely. *)
Lemma compare_addr_loop_rejected (addr port : Z) (mr ma : bool)
    (policy : list exit_policy_t) :
  compare_addr_loop addr port mr ma policy = ADDR_POLICY_REJECTED →
  ∃ tmpe, tmpe ∈ policy ∧ policy_type tmpe = EXIT_POLICY_REJECT ∧
          (clause_match addr port tmpe).1 = true.
Proof.
  revert mr ma. induction policy as [|c rest IH]; intros mr ma.
  { simpl. by destruct mr. }
  cbn [compare_addr_loop]. destruct (clause_match addr port c) as [m y] eqn:Hm.
  destruct m.
  - destruct (policy_type c) eqn:Ht.
    + by destruct (if y then _ else _).
    + intros _. exists c. rewrite Hm. split_and!; [apply list_elem_of_here|done|done].
  - intros (t & Ht & H)%IH. exists t. split; [by apply list_elem_of_further|done].
Qed.

Lemma compare_addr_loop_unknown (addr port : Z) (mr ma : bool)
    (policy : list exit_policy_t) :
  compare_addr_loop addr port mr ma policy = ADDR_POLICY_UNKNOWN →
  mr = true ∨ ma = true ∨
  ∃ tmpe, tmpe ∈ policy ∧ (clause_match addr port tmpe).2 = true.
Proof.
  revert mr ma. induction policy as [|c rest IH]; intros mr ma.
  { simpl. destruct mr; [by left|done]. }
  cbn [compare_addr_loop]. destruct (clause_match addr port c) as [m y] eqn:Hm.
  assert (Hc : y = true → ∃ tmpe, tmpe ∈ c :: rest ∧ (clause_match addr port tmpe).2 = true).
  { intros ->. exists c. rewrite Hm. split; [apply list_elem_of_here|done]. }
  assert (Hrest : (∃ tmpe, tmpe ∈ rest ∧ (clause_match addr port tmpe).2 = true) →
            ∃ tmpe, tmpe ∈ c :: rest ∧ (clause_match addr port tmpe).2 = true).
  { intros (t & Ht & H). exists t. split; [by apply list_elem_of_further|done]. }
  destruct m.
  - destruct (policy_type c); destruct y, mr, ma; intros H; try done; auto.
  - intros [H|[H|H]]%IH.
    + destruct y; [|by left]. right. right. by apply Hc.
    + destruct y; [|by auto]. right. right. by apply Hc.
    + right. right. by apply Hrest.
Qed.

Lemma compare_addr_loop_accept_only (addr port : Z) (ma : bool)
    (policy : list exit_policy_t) :
  (∀ t, t ∈ policy → policy_type t = EXIT_POLICY_ACCEPT) →
  compare_addr_loop addr port false ma policy = ADDR_POLICY_ACCEPTED.
Proof.
  revert ma. induction policy as [|c rest IH]; intros ma Hall; [done|].
  cbn [compare_addr_loop]. rewrite (Hall c) by apply list_elem_of_here.
  destruct (clause_match addr port c) as [[] []]; try done;
    apply IH; intros t Ht; apply Hall; by apply list_elem_of_further.
Qed.

(** X2: whatever is known of the target, the answer "rejected" comes from a
    reject clause that matches definitely, the answer "unknown" needs a clause
    that matches possibly, and a policy without reject clauses (the empty
    policy among them) accepts every target. *)
Theorem compare_answers_come_from_clauses (addr port : Z) (policy : list exit_policy_t) :
  (router_compare_addr_to_exit_policy addr port policy = ADDR_POLICY_REJECTED →
     ∃ tmpe, tmpe ∈ policy ∧ policy_type tmpe = EXIT_POLICY_REJECT ∧
             (clause_match addr port tmpe).1 = true) ∧
  (router_compare_addr_to_exit_policy addr port policy = ADDR_POLICY_UNKNOWN →
     ∃ tmpe, tmpe ∈ policy ∧ (clause_match addr port tmpe).2 = true) ∧
  ((∀ t, t ∈ policy → policy_type t = EXIT_POLICY_ACCEPT) →
     router_compare_addr_to_exit_policy addr port policy = ADDR_POLICY_ACCEPTED).
Proof.
  unfold router_compare_addr_to_exit_policy. split_and!.
  - apply compare_addr_loop_rejected.
  - intros [H|[H|H]]%compare_addr_loop_unknown; done.
  - apply compare_addr_loop_accept_only.
Qed.

Lemma compare_answers_come_from_clauses_witness :
  router_compare_addr_to_exit_policy 0 0 [accept_1_2_3_4_port_80] = ADDR_POLICY_ACCEPTED.
Proof.
  apply (compare_answers_come_from_clauses 0 0 [accept_1_2_3_4_port_80]).
  intros t Ht. apply list_elem_of_singleton in Ht. subst t. reflexivity.
Defined.

Lemma clause_match_wildcards (tmpe : exit_policy_t) :
  (covers_wildcard tmpe → clause_match 0 0 tmpe = (true, false)) ∧
  (¬ covers_wildcard tmpe → clause_match 0 0 tmpe = (false, true)).
Proof.
  unfold covers_wildcard, clause_match. rewrite <- port_in_range_spec. simpl.
  destruct (port_in_range 0 tmpe); destruct (Z.eqb_spec (msk tmpe) 0);
    split; intros H; try done; intuition congruence.
Qed.

Lemma covers_wildcard_or_not (tmpe : exit_policy_t) :
  covers_wildcard tmpe ∨ ¬ covers_wildcard tmpe.
Proof.
  unfold covers_wildcard.
  destruct (decide (msk tmpe = 0%Z)); destruct (decide (prt_min tmpe ≤ 0 ≤ prt_max tmpe)%Z);
    tauto.
Qed.

(** Once a clause has possibly accepted, the answer is not "rejected". *)
Lemma compare_addr_loop_maybe_accept (addr port : Z) (mr : bool)
    (policy : list exit_policy_t) :
  compare_addr_loop addr port mr true policy ≠ ADDR_POLICY_REJECTED.
Proof.
  revert mr. induction policy as [|c rest IH]; intros mr; [by destruct mr|].
  cbn [compare_addr_loop].
  destruct (clause_match addr port c) as [[] []], (policy_type c), mr; try done; apply IH.
Qed.

Lemma compare_addr_loop_wildcards_rejected (mr : bool) (policy : list exit_policy_t) :
  compare_addr_loop 0 0 mr false policy = ADDR_POLICY_REJECTED ↔
  ∃ pre c post, policy = pre ++ c :: post ∧
    Forall (λ t, policy_type t = EXIT_POLICY_REJECT) pre ∧
    policy_type c = EXIT_POLICY_REJECT ∧ covers_wildcard c.
Proof.
  revert mr. induction policy as [|c0 rest IH]; intros mr.
  { simpl. split; [by destruct mr|]. intros (pre & c & post & H & _). by destruct pre. }
  destruct (clause_match_wildcards c0) as [Hyes Hno].
  cbn [compare_addr_loop].
  destruct (covers_wildcard_or_not c0) as [Hc|Hc].
  - rewrite (Hyes Hc). destruct (policy_type c0) eqn:Ht.
    + split; [by destruct mr|]. intros (pre & c & post & H & Hpre & Hrej & _).
      destruct pre as [|p pre]; simpl in H; injection H as -> ->; [congruence|].
      apply Forall_cons in Hpre as [? _]. congruence.
    + split; [|done]. intros _. exists [], c0, rest. by split_and!.
  - rewrite (Hno Hc). destruct (policy_type c0) eqn:Ht.
    + split; [intros H; by apply compare_addr_loop_maybe_accept in H|].
      intros (pre & c & post & H & Hpre & Hrej & Hcov).
      destruct pre as [|p pre]; simpl in H; injection H as -> ->; [done|].
      apply Forall_cons in Hpre as [? _]. congruence.
    + rewrite IH. split.
      * intros (pre & c & post & -> & Hpre & Hrej & Hcov).
        exists (c0 :: pre), c, post. split_and!; try done. by apply Forall_cons.
      * intros (pre & c & post & H & Hpre & Hrej & Hcov).
        destruct pre as [|p pre]; simpl in H; injection H as -> ->; [done|].
        apply Forall_cons in Hpre as [_ Hpre]. by exists pre, c, post.
Qed.

Section PolicyOfRouters.
Context `{Ext : Externals}.

(** X3: router_exit_policy_rejects_all holds exactly when the policy has a
    reject clause with mask 0 whose port range contains 0, and only reject
    clauses before it.  An accept clause before it makes the answer false, and
    so does a closing reject clause whose range starts above 0. *)
Theorem rejects_all_iff_leading_rejects (router : routerinfo_t) :
  router_exit_policy_rejects_all router = true ↔
  ∃ pre c post, exit_policy router = pre ++ c :: post ∧
    Forall (λ t, policy_type t = EXIT_POLICY_REJECT) pre ∧
    policy_type c = EXIT_POLICY_REJECT ∧ covers_wildcard c.
Proof.
  unfold router_exit_policy_rejects_all, router_compare_addr_to_exit_policy.
  rewrite <- (compare_addr_loop_wildcards_rejected false).
  destruct (compare_addr_loop 0 0 false false (exit_policy router)); simpl;
    split; intros H; done.
Qed.

Lemma all_routers_reject_loop_spec (addr port : Z) (rs : list routerinfo_t) :
  (all_routers_reject_loop addr port rs = 1%Z ∨
   all_routers_reject_loop addr port rs = 0%Z) ∧
  (all_routers_reject_loop addr port rs = 1%Z ↔
   ∀ r, r ∈ rs → is_running r = true →
     router_compare_addr_to_exit_policy addr port (exit_policy r) = ADDR_POLICY_REJECTED).
Proof.
  induction rs as [|r0 rest [IHv IH]].
  { split; [by left|]. split; [|done]. by intros _ r ?%elem_of_nil. }
  cbn [all_routers_reject_loop].
  destruct (is_running r0) eqn:Hrun; simpl.
  - destruct (router_compare_addr_to_exit_policy addr port (exit_policy r0)) eqn:Hc; simpl.
    + split; [by right|]. split; [done|]. intros H.
      specialize (H r0 (list_elem_of_here _ _) Hrun). congruence.
    + split; [done|]. rewrite IH. split.
      * intros H r [->|Hr]%elem_of_cons; [done|by apply H].
      * intros H r Hr. apply H. by apply list_elem_of_further.
    + split; [by right|]. split; [done|]. intros H.
      specialize (H r0 (list_elem_of_here _ _) Hrun). congruence.
  - split; [done|]. rewrite IH. split.
    + intros H r [->|Hr]%elem_of_cons; [congruence|by apply H].
    + intros H r Hr. apply H. by apply list_elem_of_further.
Qed.

(** X4: router_exit_policy_all_routers_reject returns 1 or 0, and 1 exactly
    when the policy of every running router answers "rejected"; routers that
    are not running are not asked, and one running router whose answer is
    "unknown" or "accepted" makes the result 0. *)
Theorem all_routers_reject_iff (routerlist : routerlist_t) (addr port : Z) :
  (router_exit_policy_all_routers_reject routerlist addr port = 1%Z ∨
   router_exit_policy_all_routers_reject routerlist addr port = 0%Z) ∧
  (router_exit_policy_all_routers_reject routerlist addr port = 1%Z ↔
   ∀ r, r ∈ routers routerlist → is_running r = true →
     router_compare_addr_to_exit_policy addr port (exit_policy r) = ADDR_POLICY_REJECTED).
Proof. apply all_routers_reject_loop_spec. Qed.

End PolicyOfRouters.

(** ** More theorems on the routerlist *)

(** *** strcasecmp *)

Lemma strcasecmp_refl (s : string) : strcasecmp s s = 0%Z.
Proof. induction s as [|c s IH]; [done|]. simpl. by rewrite Z.eqb_refl. Qed.

Lemma strcasecmp_sym (s1 s2 : string) :
  strcasecmp s1 s2 = 0%Z → strcasecmp s2 s1 = 0%Z.
Proof.
  revert s2. induction s1 as [|c1 r1 IH]; intros [|c2 r2]; simpl; try lia.
  rewrite (Z.eqb_sym (tolower c2)).
  destruct (Z.eqb_spec (tolower c1) (tolower c2)); [apply IH|lia].
Qed.

Lemma strcasecmp_lower (s1 s2 : string) :
  c_string s1 → c_string s2 →
  strcasecmp s1 s2 = 0%Z ↔ lower s1 = lower s2.
Proof.
  unfold c_string, lower. revert s2.
  induction s1 as [|c1 r1 IH]; intros [|c2 r2]; simpl; intros H1 H2.
  - done.
  - apply Forall_cons in H2 as [H2 _]. apply tolower_nonzero in H2.
    split; [lia|done].
  - apply Forall_cons in H1 as [H1 _]. apply tolower_nonzero in H1.
    split; [lia|done].
  - apply Forall_cons in H1 as [_ H1]. apply Forall_cons in H2 as [_ H2].
    destruct (Z.eqb_spec (tolower c1) (tolower c2)) as [E|E].
    + rewrite (IH r2 H1 H2). split; [by intros ->; rewrite E|by intros [= _ ?]].
    + split; [lia|by intros [= ? _]].
Qed.

Section MergeFacts.
Context `{Ext : Externals}.

(** Either no router of the list has the nickname, or there is a first one. *)
Lemma first_with_nickname (nick : string) (rs : list routerinfo_t) :
  (∀ r, r ∈ rs → strcasecmp nick (nickname r) ≠ 0%Z) ∨
  ∃ i r, rs !! i = Some r ∧ strcasecmp nick (nickname r) = 0%Z ∧
         ∀ j r', (j < i)%nat → rs !! j = Some r' → strcasecmp nick (nickname r') ≠ 0%Z.
Proof.
  induction rs as [|r0 rest IH]; [left; by intros r ?%elem_of_nil|].
  destruct (decide (strcasecmp nick (nickname r0) = 0%Z)) as [E|E].
  { right. exists 0%nat, r0. split_and!; [done|done|]. intros j r' Hj. lia. }
  destruct IH as [Hnone|(i & r & Hi & Hr & Hfirst)].
  - left. intros r [->|Hr]%elem_of_cons; [done|by apply Hnone].
  - right. exists (S i), r. split_and!; [done|done|].
    intros [|j] r' Hj Hr'; simpl in Hr'; [by injection Hr' as <-|].
    apply (Hfirst j r'); [lia|done].
Qed.

Lemma add_to_routers_no_match (router : routerinfo_t) (rs : list routerinfo_t) :
  (∀ r, r ∈ rs → strcasecmp (nickname router) (nickname r) ≠ 0%Z) →
  add_to_routers router rs = (0%Z, rs ++ [router]).
Proof.
  induction rs as [|r0 rest IH]; intros Hnone; [done|]. simpl.
  destruct (Z.eqb_spec (strcasecmp (nickname router) (nickname r0)) 0) as [E|_].
  { destruct (Hnone r0); [apply list_elem_of_here|done]. }
  rewrite IH; [done|]. intros r Hr. apply Hnone. by apply list_elem_of_further.
Qed.

(** X5: a descriptor whose nickname no router of the list has is put at the
    end of the list, and the call returns 0; the routers that were there are
    not touched. *)
Theorem add_unknown_nickname_appends (routerlist : routerlist_t) (router : routerinfo_t) :
  (∀ r, r ∈ routers routerlist → strcasecmp (nickname router) (nickname r) ≠ 0%Z) →
  router_add_to_routerlist routerlist router =
    (0%Z, set_routers routerlist (routers routerlist ++ [router])).
Proof.
  intros Hnone. unfold router_add_to_routerlist.
  by rewrite (add_to_routers_no_match router _ Hnone).
Qed.

(** X6: a newer descriptor with the identity key of the first router that has
    its nickname takes the place of that router, and the call returns 0.  The
    new router is the incoming descriptor, except that it is trusted when the
    old router was, and that it has the resolved address of the old router
    when the host name is the same up to case. *)
Theorem add_newer_descriptor_replaces
    (routerlist : routerlist_t) (router r : routerinfo_t) (i : nat) :
  routers routerlist !! i = Some r →
  (∀ j r', (j < i)%nat → routers routerlist !! j = Some r' →
     strcasecmp (nickname router) (nickname r') ≠ 0%Z) →
  strcasecmp (nickname router) (nickname r) = 0%Z →
  crypto_pk_cmp_keys (identity_pkey router) (identity_pkey r) = 0%Z →
  (published_on r < published_on router)%Z →
  ∃ r',
    router_add_to_routerlist routerlist router =
      (0%Z, set_routers routerlist (<[i := r']> (routers routerlist))) ∧
    r' = set_addr (set_is_trusted_dir router (is_trusted_dir router || is_trusted_dir r))
           (if (strcasecmp (address r) (address router) =? 0)%Z
            then addr r else addr router).
Proof.
  intros Hi Hfirst Hnick Hkey Hpub. exists (replacement router r).
  unfold router_add_to_routerlist.
  rewrite (add_to_routers_first_match router r _ i Hi Hfirst Hnick), Hkey. simpl.
  destruct (Z.ltb_spec (published_on r) (published_on router)); [|lia].
  split; [done|]. unfold replacement. destruct router. simpl.
  destruct (is_trusted_dir r); simpl; rewrite ?orb_true_r, ?orb_false_r;
    by destruct (_ =? 0)%Z.
Qed.

(** X7: when the first router with the nickname of the incoming descriptor
    has another identity key, the call returns -1 and the routerlist is not
    changed, whatever the dates and flags of the descriptor. *)
Theorem add_other_key_changes_nothing
    (routerlist : routerlist_t) (router r : routerinfo_t) (i : nat) :
  routers routerlist !! i = Some r →
  (∀ j r', (j < i)%nat → routers routerlist !! j = Some r' →
     strcasecmp (nickname router) (nickname r') ≠ 0%Z) →
  strcasecmp (nickname router) (nickname r) = 0%Z →
  crypto_pk_cmp_keys (identity_pkey router) (identity_pkey r) ≠ 0%Z →
  router_add_to_routerlist routerlist router = ((-1)%Z, routerlist).
Proof.
  intros Hi Hfirst Hnick Hkey. unfold router_add_to_routerlist.
  rewrite (add_to_routers_first_match router r _ i Hi Hfirst Hnick).
  destruct (Z.eqb_spec (crypto_pk_cmp_keys (identity_pkey router) (identity_pkey r)) 0);
    [done|]. simpl. by destruct routerlist.
Qed.

Lemma kept_self (router : routerinfo_t) : kept router router = router.
Proof. unfold kept. destruct router as [? ? ? ? ? ? ? ? ? ? ? ? []]; done. Qed.

Lemma kept_replacement (router r : routerinfo_t) :
  kept router (replacement router r) = replacement router r.
Proof.
  unfold kept, replacement. destruct router as [? ? ? ? ? ? ? ? ? ? ? ? []]; simpl;
    destruct (is_trusted_dir r); simpl; by destruct (_ =? 0)%Z.
Qed.

Lemma kept_kept (router r : routerinfo_t) : kept router (kept router r) = kept router r.
Proof. unfold kept. by destruct (is_trusted_dir router). Qed.

Lemma nickname_replacement (router r : routerinfo_t) :
  nickname (replacement router r) = nickname router ∧
  identity_pkey (replacement router r) = identity_pkey router ∧
  published_on (replacement router r) = published_on router.
Proof.
  unfold replacement.
  by destruct (is_trusted_dir r); destruct (_ =? 0)%Z.
Qed.

Lemma nickname_kept (router r : routerinfo_t) :
  nickname (kept router r) = nickname r ∧
  identity_pkey (kept router r) = identity_pkey r ∧
  published_on (kept router r) = published_on r.
Proof. unfold kept. by destruct (is_trusted_dir router). Qed.

Lemma add_to_routers_twice (router : routerinfo_t) (rs : list routerinfo_t) :
  crypto_pk_cmp_keys (identity_pkey router) (identity_pkey router) = 0%Z →
  add_to_routers router (add_to_routers router rs).2 =
    ((-1)%Z, (add_to_routers router rs).2).
Proof.
  intros Hrefl.
  destruct (first_with_nickname (nickname router) rs) as [Hnone|(i & r & Hi & Hr & Hfirst)].
  - rewrite (add_to_routers_no_match router rs Hnone). simpl.
    rewrite (add_to_routers_first_match router router (rs ++ [router]) (length rs)).
    + rewrite Hrefl, Z.ltb_irrefl. simpl. rewrite kept_self.
      by rewrite list_insert_id by (by rewrite lookup_app_r, Nat.sub_diag by lia).
    + by rewrite lookup_app_r, Nat.sub_diag by lia.
    + intros j r' Hj Hr'. rewrite lookup_app_l in Hr' by done.
      apply Hnone. by apply list_elem_of_lookup_2 in Hr'.
    + apply strcasecmp_refl.
  - apply lookup_lt_Some in Hi as Hlt.
    rewrite (add_to_routers_first_match router r rs i Hi Hfirst Hr).
    destruct (Z.eqb_spec (crypto_pk_cmp_keys (identity_pkey router) (identity_pkey r)) 0)
      as [Hk|Hk].
    + destruct (published_on r <? published_on router)%Z eqn:Hnew; simpl.
      * destruct (nickname_replacement router r) as (Hn & Hkey & Hpub).
        rewrite (add_to_routers_first_match router (replacement router r) _ i).
        -- rewrite Hkey, Hrefl, Hpub, Z.ltb_irrefl. simpl.
           by rewrite kept_replacement, list_insert_insert_eq.
        -- by apply list_lookup_insert_eq.
        -- intros j r' Hj Hr'. rewrite list_lookup_insert_ne in Hr' by lia.
           by apply (Hfirst j r').
        -- rewrite Hn. apply strcasecmp_refl.
      * destruct (nickname_kept router r) as (Hn & Hkey & Hpub).
        rewrite (add_to_routers_first_match router (kept router r) _ i).
        -- rewrite Hkey, Hpub, Hnew. destruct (_ =? 0)%Z eqn:E; [|by apply Z.eqb_neq in E].
           simpl. by rewrite kept_kept, list_insert_insert_eq.
        -- by apply list_lookup_insert_eq.
        -- intros j r' Hj Hr'. rewrite list_lookup_insert_ne in Hr' by lia.
           by apply (Hfirst j r').
        -- by rewrite Hn.
    + simpl. rewrite (add_to_routers_first_match router r rs i Hi Hfirst Hr).
      by destruct (Z.eqb_spec (crypto_pk_cmp_keys (identity_pkey router) (identity_pkey r)) 0).
Qed.

(** X8: a descriptor that is added a second time is dropped and changes
    nothing: whatever the first call did (append, replace, skip or refuse),
    the second call returns -1 and leaves the routerlist of the first call.
    The key comparison is taken to find a key equal to itself. *)
Theorem add_same_descriptor_twice (routerlist : routerlist_t) (router : routerinfo_t) :
  crypto_pk_cmp_keys (identity_pkey router) (identity_pkey router) = 0%Z →
  router_add_to_routerlist (router_add_to_routerlist routerlist router).2 router =
    ((-1)%Z, (router_add_to_routerlist routerlist router).2).
Proof.
  intros Hrefl. unfold router_add_to_routerlist. simpl.
  by rewrite (add_to_routers_twice router _ Hrefl).
Qed.

End MergeFacts.

Section NicknameInvariant.
Context `{Ext : Externals}.

Lemma nicknames_distinct_insert (rs : list routerinfo_t) (i : nat) (r x : routerinfo_t) :
  nicknames_distinct rs → nicknames_c_strings rs →
  rs !! i = Some r → c_string (nickname x) →
  strcasecmp (nickname x) (nickname r) = 0%Z →
  nicknames_distinct (<[i := x]> rs) ∧ nicknames_c_strings (<[i := x]> rs).
Proof.
  intros Hd Hc Hi Hx Hxr.
  assert (Hcr : c_string (nickname r)) by (apply Hc; by apply list_elem_of_lookup_2 in Hi).
  apply strcasecmp_lower in Hxr; [|done..].
  assert (Hget : ∀ k y, <[i := x]> rs !! k = Some y →
            ∃ y0, rs !! k = Some y0 ∧ c_string (nickname y) ∧ c_string (nickname y0) ∧
                  lower (nickname y) = lower (nickname y0)).
  { intros k y Hk. destruct (decide (k = i)) as [->|Hne].
    - rewrite list_lookup_insert_eq in Hk by (by apply lookup_lt_Some in Hi).
      injection Hk as <-. by exists r.
    - rewrite list_lookup_insert_ne in Hk by done. exists y. split_and!; try done;
        apply Hc; by apply list_elem_of_lookup_2 in Hk. }
  split.
  - intros k1 k2 y1 y2 H1 H2 Hne.
    destruct (Hget k1 y1 H1) as (z1 & Hz1 & ? & ? & E1).
    destruct (Hget k2 y2 H2) as (z2 & Hz2 & ? & ? & E2).
    rewrite strcasecmp_lower, E1, E2 by done.
    rewrite <- strcasecmp_lower by done. by apply (Hd k1 k2).
  - intros y [k Hk]%list_elem_of_lookup_1. by destruct (Hget k y Hk) as (? & ? & ? & _).
Qed.

Lemma add_to_routers_distinct (router : routerinfo_t) (rs : list routerinfo_t) :
  nicknames_distinct rs → nicknames_c_strings rs → c_string (nickname router) →
  nicknames_distinct (add_to_routers router rs).2 ∧
  nicknames_c_strings (add_to_routers router rs).2.
Proof.
  intros Hd Hc Hr.
  destruct (first_with_nickname (nickname router) rs) as [Hnone|(i & r & Hi & Hn & Hfirst)].
  - rewrite (add_to_routers_no_match router rs Hnone). simpl. split.
    + intros k1 k2 y1 y2 H1 H2 Hne.
      apply lookup_app_Some in H1 as [H1|[Hk1 H1]];
        apply lookup_app_Some in H2 as [H2|[Hk2 H2]].
      * by apply (Hd k1 k2).
      * apply list_lookup_singleton_Some in H2 as [_ <-].
        intros E. apply strcasecmp_sym in E. revert E. apply Hnone.
        by apply list_elem_of_lookup_2 in H1.
      * apply list_lookup_singleton_Some in H1 as [_ <-].
        apply Hnone. by apply list_elem_of_lookup_2 in H2.
      * apply list_lookup_singleton_Some in H1 as [? _].
        apply list_lookup_singleton_Some in H2 as [? _]. lia.
    + intros y [Hy| ->%list_elem_of_singleton]%elem_of_app; [by apply Hc|done].
  - rewrite (add_to_routers_first_match router r rs i Hi Hfirst Hn).
    assert (Hcr : c_string (nickname r)) by (apply Hc; by apply list_elem_of_lookup_2 in Hi).
    destruct (_ =? 0)%Z; [|done].
    destruct (_ <? _)%Z; simpl.
    + destruct (nickname_replacement router r) as (E & _).
      apply (nicknames_distinct_insert rs i r); try done; by rewrite E.
    + destruct (nickname_kept router r) as (E & _).
      apply (nicknames_distinct_insert rs i r); try done; rewrite E; [done|].
      apply strcasecmp_refl.
Qed.

(** X9: router_add_to_routerlist keeps the nicknames of the routerlist
    distinct up to case: when no two routers have the same nickname, no two
    routers have the same nickname after the call.  Nicknames are taken to be
    C strings, without the terminator inside. *)
Theorem add_keeps_nicknames_distinct (routerlist : routerlist_t) (router : routerinfo_t) :
  nicknames_distinct (routers routerlist) →
  nicknames_c_strings (routers routerlist) →
  c_string (nickname router) →
  nicknames_distinct (routers (router_add_to_routerlist routerlist router).2) ∧
  nicknames_c_strings (routers (router_add_to_routerlist routerlist router).2).
Proof. intros Hd Hc Hr. simpl. by apply add_to_routers_distinct. Qed.

Lemma add_to_routers_length (router : routerinfo_t) (rs : list routerinfo_t) :
  (length rs ≤ length (add_to_routers router rs).2)%nat.
Proof.
  induction rs as [|r0 rest IH]; simpl; [lia|].
  destruct (_ =? 0)%Z; [|simpl; lia].
  destruct (_ =? 0)%Z; [|simpl; lia].
  destruct (_ <? _)%Z; simpl; lia.
Qed.

(** X10: the loader's loop over a parsed list keeps what one call keeps: a
    router that is trusted is still trusted, at its position, after all the
    descriptors of the list have been added; the routerlist never gets
    shorter; and distinct nicknames stay distinct. *)
Theorem add_all_keeps_trust_and_nicknames
    (routerlist : routerlist_t) (new_routers : list routerinfo_t) :
  (∀ i r, routers routerlist !! i = Some r → is_trusted_dir r = true →
     ∃ r', routers (add_all_to_routerlist routerlist new_routers) !! i = Some r' ∧
           is_trusted_dir r' = true) ∧
  (length (routers routerlist) ≤
     length (routers (add_all_to_routerlist routerlist new_routers)))%nat ∧
  (nicknames_distinct (routers routerlist) → nicknames_c_strings (routers routerlist) →
   nicknames_c_strings new_routers →
   nicknames_distinct (routers (add_all_to_routerlist routerlist new_routers))).
Proof.
  unfold add_all_to_routerlist. revert routerlist.
  induction new_routers as [|router rest IH]; intros routerlist; simpl.
  { split_and!; [by eauto|lia|done]. }
  destruct (IH (router_add_to_routerlist routerlist router).2) as (IH1 & IH2 & IH3).
  split_and!.
  - intros i r Hi Ht.
    destruct (add_to_routers_keeps_trust router r _ i Hi) as (r1 & Hr1 & Ht1 & _).
    apply (IH1 i r1); [done|by apply Ht1].
  - etrans; [|apply IH2]. simpl. apply add_to_routers_length.
  - intros Hd Hc Hnew.
    destruct (add_to_routers_distinct router (routers routerlist) Hd Hc) as [Hd1 Hc1].
    { apply Hnew, list_elem_of_here. }
    apply IH3; [done|done|]. intros r Hr. apply Hnew. by apply list_elem_of_further.
Qed.

End NicknameInvariant.

Section MoreRouterlistFacts.
Context `{Ext : Externals}.

(** *** routerlist_remove_old_routers, again *)

Lemma remove_old_loop_nothing_old (cutoff : Z) (rs : list routerinfo_t) (i : nat) :
  (∀ r, r ∈ drop i rs → too_old cutoff r = false) →
  remove_old_loop cutoff rs i = rs.
Proof.
  funelim (remove_old_loop cutoff rs i); intros Hnone; [done| |].
  - rewrite (drop_S rs router i Hi) in Hnone.
    specialize (Hnone router (list_elem_of_here _ _)). congruence.
  - match goal with IH : _ → remove_old_loop _ _ _ = _ |- _ => apply IH end.
    intros r Hr. apply Hnone. rewrite (drop_S rs router i Hi).
    by apply list_elem_of_further.
Qed.

(** X11: a second run of routerlist_remove_old_routers at the same time
    removes nothing and leaves the routers in their order; a NULL routerlist
    stays NULL. *)
Theorem remove_old_routers_twice (now : Z) (routerlist : option routerlist_t) :
  routerlist_remove_old_routers now (routerlist_remove_old_routers now routerlist) =
  routerlist_remove_old_routers now routerlist.
Proof.
  destruct routerlist as [rl|]; [|done]. simpl. f_equal.
  unfold set_routers. simpl. f_equal.
  apply remove_old_loop_nothing_old. rewrite drop_0. intros r Hr.
  rewrite remove_old_loop_spec, take_0, drop_0 in Hr. simpl in Hr.
  by apply list_elem_of_filter in Hr as [? _].
Qed.

(** *** routerlist_update_from_runningrouters, again *)

Lemma update_from_names_descriptor (router : routerinfo_t) (names : list string) :
  same_descriptor (update_from_names router names) router ∧
  is_trusted_dir (update_from_names router names) = is_trusted_dir router.
Proof.
  induction names as [|name rest IH]; [done|]. simpl.
  destruct (negb _), (router_nickname_matches router name); simpl; done.
Qed.

(** X12: a running-routers list that is newer than the directory and than
    the last running-routers list is applied: its date becomes the date of the
    last running-routers list, the date of the directory stays, and every
    router keeps its position, its descriptor and its trust; only
    [is_running] can change. *)
Theorem fresh_runningrouters_touch_only_is_running (l : routerlist_t) (rr : running_routers_t) :
  (rl_published_on l < rr_published_on rr)%Z →
  (running_routers_updated_on l < rr_published_on rr)%Z →
  ∃ l', routerlist_update_from_runningrouters (Some l) rr = Some l' ∧
    running_routers_updated_on l' = rr_published_on rr ∧
    rl_published_on l' = rl_published_on l ∧
    software_versions l' = software_versions l ∧
    length (routers l') = length (routers l) ∧
    ∀ i r, routers l !! i = Some r →
      ∃ r', routers l' !! i = Some r' ∧ same_descriptor r' r ∧
            is_trusted_dir r' = is_trusted_dir r.
Proof.
  intros H1 H2. unfold routerlist_update_from_runningrouters.
  destruct (Z.leb_spec (rr_published_on rr) (rl_published_on l)); [lia|].
  destruct (Z.leb_spec (rr_published_on rr) (running_routers_updated_on l)); [lia|].
  eexists. split; [done|]. simpl. split_and!; try done.
  - by rewrite length_map.
  - intros i r Hi. exists (update_from_names r (running_routers rr)).
    split; [by rewrite list_lookup_fmap, Hi|]. apply update_from_names_descriptor.
Qed.

Lemma char_code_inj (c1 c2 : ascii) : char_code c1 = char_code c2 → c1 = c2.
Proof.
  unfold char_code. intros H. apply N2Z.inj in H.
  by rewrite <- (ascii_N_embedding c1), <- (ascii_N_embedding c2), H.
Qed.

Lemma strcasecmp_bang (s name : string) :
  first_char_is "!" name = true → strcasecmp s name = 0%Z →
  first_char_is "!" s = true.
Proof.
  destruct name as [|c rest]; [done|]. simpl.
  intros ->%Ascii.eqb_eq. destruct s as [|c1 r1]; simpl; [done|].
  destruct (Z.eqb_spec (tolower c1) (tolower "!")) as [E|E]; [|lia].
  intros _. apply Ascii.eqb_eq. apply char_code_inj.
  change (tolower "!") with 33%Z in E. unfold tolower in E.
  change (char_code "!") with 33%Z.
  destruct (Z.leb_spec 65 (char_code c1)), (Z.leb_spec (char_code c1) 90);
    simpl in E; lia.
Qed.

(** A negated name is no hexadecimal digest. *)
Lemma decode_hexdigest_bang (name : string) :
  first_char_is "!" name = true → decode_hexdigest name = None.
Proof.
  destruct name as [|c rest]; [done|]. simpl. intros ->%Ascii.eqb_eq.
  unfold decode_hexdigest. destruct (_ =? _)%nat; [|done].
  by destruct rest.
Qed.

Lemma negated_name_matches_only_bang (router : routerinfo_t) (name : string) :
  first_char_is "!" name = true →
  first_char_is "!" (nickname router) = false →
  router_nickname_matches router name = false.
Proof.
  intros Hname Hnick. unfold router_nickname_matches, router_hex_digest_matches.
  assert (Hd : first_char_is "$" name = false).
  { destruct name as [|c rest]; [done|]. simpl in *.
    apply Ascii.eqb_eq in Hname as ->. done. }
  rewrite Hd. simpl. rewrite (decode_hexdigest_bang name Hname).
  destruct (Z.eqb_spec (strcasecmp (nickname router) name) 0) as [E|E]; [|done].
  apply (strcasecmp_bang _ _ Hname) in E. congruence.
Qed.

(** X13: for a router whose nickname does not begin with [!], the names of a
    running-routers list act as follows: the router is running afterwards
    exactly when it was running before or some name of the list matches it.
    The names that begin with [!] are compared with their [!], so they match
    no such router, and the update never marks such a router as down. *)
Theorem runningrouters_names_only_mark_up (router : routerinfo_t) (names : list string) :
  first_char_is "!" (nickname router) = false →
  is_running (update_from_names router names) =
    is_running router || existsb (router_nickname_matches router) names ∧
  (∀ name, first_char_is "!" name = true → router_nickname_matches router name = false) ∧
  (is_running router = true → is_running (update_from_names router names) = true).
Proof.
  intros Hnick.
  assert (Hneg : ∀ name, first_char_is "!" name = true →
            router_nickname_matches router name = false).
  { intros name Hname. by apply negated_name_matches_only_bang. }
  assert (Hrun : is_running (update_from_names router names) =
            is_running router || existsb (router_nickname_matches router) names).
  { induction names as [|name rest IH]; simpl; [by rewrite orb_false_r|].
    destruct (first_char_is "!" name) eqn:Hb; simpl.
    - rewrite (Hneg name Hb). simpl. apply IH.
    - destruct (router_nickname_matches router name); simpl; [by rewrite orb_true_r|].
      apply IH. }
  split_and!; [done|done|]. intros Hr. by rewrite Hrun, Hr.
Qed.

(** X14: a running-routers list that is applied a second time changes
    nothing: the second call returns the routerlist of the first. *)
Theorem runningrouters_twice (l : option routerlist_t) (rr : running_routers_t) :
  routerlist_update_from_runningrouters (routerlist_update_from_runningrouters l rr) rr =
  routerlist_update_from_runningrouters l rr.
Proof.
  destruct l as [l|]; [|done]. cbn [routerlist_update_from_runningrouters].
  destruct (rr_published_on rr <=? rl_published_on l)%Z eqn:H1.
  { cbn [routerlist_update_from_runningrouters]. by rewrite H1. }
  destruct (rr_published_on rr <=? running_routers_updated_on l)%Z eqn:H2.
  { cbn [routerlist_update_from_runningrouters]. by rewrite H1, H2. }
  cbn [routerlist_update_from_runningrouters rl_published_on running_routers_updated_on].
  by rewrite H1, Z.leb_refl.
Qed.

(** *** Lookups *)

Lemma digest_eq_sym (d1 d2 : list Z) : digest_eq d1 d2 = digest_eq d2 d1.
Proof. unfold digest_eq. apply bool_decide_ext. split; by intros ->. Qed.

(** X15: router_get_by_nickname and router_nickname_matches agree: the
    lookup returns the first router of the list that router_nickname_matches
    accepts for the token, and NULL when it accepts none, for tokens with and
    without the [$] marker. *)
Theorem get_by_nickname_first_that_matches (rl : routerlist_t) (nick : string) :
  router_get_by_nickname (Some rl) nick =
  list_find (λ router, router_nickname_matches router nick = true) (routers rl).
Proof.
  unfold router_get_by_nickname, router_get_by_hexdigest, router_get_by_digest.
  destruct (first_char_is "$" nick) eqn:Hd.
  - destruct (decode_hexdigest (skip_char nick)) as [digest|] eqn:Hdec.
    + apply list_find_ext. intros r.
      unfold router_nickname_matches, router_hex_digest_matches.
      rewrite Hd, Hdec. simpl. by rewrite digest_eq_sym.
    + symmetry. apply list_find_None, Forall_forall. intros r _.
      unfold router_nickname_matches, router_hex_digest_matches.
      rewrite Hd, Hdec. done.
  - apply list_find_ext. intros r.
    unfold router_nickname_matches, router_hex_digest_matches, nickname_or_digest_is.
    rewrite Hd. simpl.
    destruct (strcasecmp (nickname r) nick =? 0)%Z; simpl; [done|].
    by destruct (decode_hexdigest nick).
Qed.

(** X16: router_mark_as_down changes nothing when no router has the digest;
    else it clears [is_running] of the first router with the digest and of no
    other, and a lookup of the digest finds that router, at the same position,
    not running. *)
Theorem mark_as_down_then_lookup (routerlist : routerlist_t) (digest : list Z) :
  (router_get_by_digest routerlist digest = None →
   router_mark_as_down routerlist digest = routerlist) ∧
  (∀ p r, router_get_by_digest routerlist digest = Some (p, r) →
     routers (router_mark_as_down routerlist digest) =
       <[p := set_is_running r false]> (routers routerlist) ∧
     router_get_by_digest (router_mark_as_down routerlist digest) digest =
       Some (p, set_is_running r false)).
Proof.
  unfold router_mark_as_down. split.
  - by intros ->.
  - intros p r Hget. rewrite Hget. simpl. split; [done|].
    unfold router_get_by_digest in *. simpl.
    apply list_find_Some in Hget as (Hp & Hd & Hfirst).
    apply list_find_Some. split_and!.
    + apply list_lookup_insert_eq. by apply lookup_lt_Some in Hp.
    + done.
    + intros j y Hj Hlt. rewrite list_lookup_insert_ne in Hj by lia.
      by apply (Hfirst j y).
Qed.

End MoreRouterlistFacts.

Section DirectoryFacts.
Context `{Ext : Externals}.

(** *** The dirserver selection *)

Lemma running_dirservers_sound (i : nat) (rs : list routerinfo_t) (sl : list nat) :
  running_dirservers i rs = Done sl →
  ∀ p, p ∈ sl ↔
    (i ≤ p)%nat ∧ ∃ r, rs !! (p - i)%nat = Some r ∧ is_running r = true ∧
                       is_trusted_dir r = true ∧ (0 < dir_port r)%Z.
Proof.
  revert i sl. induction rs as [|r0 rest IH]; intros i sl.
  { simpl. intros [= <-] p. split; [by intros ?%elem_of_nil|].
    intros [_ (r & Hr & _)]. by rewrite lookup_nil in Hr. }
  cbn [running_dirservers].
  assert (Hshift : ∀ p r, (S i ≤ p)%nat → rest !! (p - S i)%nat = Some r →
            (r0 :: rest) !! (p - i)%nat = Some r).
  { intros p r Hle Hr. by replace (p - i)%nat with (S (p - S i)) by lia. }
  assert (Hback : ∀ p r, (i ≤ p)%nat → p ≠ i → (r0 :: rest) !! (p - i)%nat = Some r →
            (S i ≤ p)%nat ∧ rest !! (p - S i)%nat = Some r).
  { intros p r Hle Hne Hr. split; [lia|].
    by replace (p - i)%nat with (S (p - S i)) in Hr by lia. }
  destruct (is_running r0 && is_trusted_dir r0) eqn:Hrt.
  - apply andb_true_iff in Hrt as [Hrun Ht].
    destruct (Z.ltb_spec 0 (dir_port r0)) as [Hport|Hport]; [|done]. simpl.
    destruct (running_dirservers (S i) rest) as [sl0|] eqn:Hrest; [|done]. simpl.
    intros [= <-] p. rewrite elem_of_cons, (IH (S i) sl0 Hrest p). split.
    + intros [->|(Hle & r & Hr & H)].
      * split; [lia|]. exists r0. by rewrite Nat.sub_diag.
      * split; [lia|]. exists r. split; [by apply Hshift|done].
    + intros (Hle & r & Hr & H). destruct (decide (p = i)) as [->|Hne]; [by left|].
      right. destruct (Hback p r Hle Hne Hr). by eauto.
  - intros Hrest p. rewrite (IH (S i) sl Hrest p). split.
    + intros (Hle & r & Hr & H). split; [lia|]. exists r. split; [by apply Hshift|done].
    + intros (Hle & r & Hr & Hrun & Ht & Hport).
      destruct (decide (p = i)) as [->|Hne].
      { rewrite Nat.sub_diag in Hr. injection Hr as ->. by rewrite Hrun, Ht in Hrt. }
      destruct (Hback p r Hle Hne Hr). by eauto 10.
Qed.

Lemma mark_dirservers_up_sound (i : nat) (rs rs' : list routerinfo_t) (sl : list nat) :
  mark_dirservers_up i rs = Done (rs', sl) →
  rs' = map marked_up rs ∧
  ∀ p, p ∈ sl →
    (i ≤ p)%nat ∧ ∃ r, rs !! (p - i)%nat = Some r ∧ is_trusted_dir r = true ∧
                       (0 < dir_port r)%Z.
Proof.
  revert i rs' sl. induction rs as [|r0 rest IH]; intros i rs' sl.
  { simpl. intros [= <- <-]. split; [done|]. by intros p ?%elem_of_nil. }
  cbn [mark_dirservers_up].
  assert (Hshift : ∀ p r, (S i ≤ p)%nat → rest !! (p - S i)%nat = Some r →
            (r0 :: rest) !! (p - i)%nat = Some r).
  { intros p r Hle Hr. by replace (p - i)%nat with (S (p - S i)) by lia. }
  destruct (is_trusted_dir r0) eqn:Ht.
  - destruct (Z.ltb_spec 0 (dir_port r0)) as [Hport|Hport]; [|done]. simpl.
    destruct (mark_dirservers_up (S i) rest) as [[rs0 sl0]|] eqn:Hrest; [|done]. simpl.
    intros [= <- <-]. destruct (IH (S i) rs0 sl0 Hrest) as [-> Hsl]. split.
    + simpl. unfold marked_up at 2. by rewrite Ht.
    + intros p [->|Hp]%elem_of_cons.
      * split; [lia|]. exists r0. by rewrite Nat.sub_diag.
      * destruct (Hsl p Hp) as (Hle & r & Hr & H). split; [lia|].
        exists r. split; [by apply Hshift|done].
  - destruct (mark_dirservers_up (S i) rest) as [[rs0 sl0]|] eqn:Hrest; [|done]. simpl.
    intros [= <- <-]. destruct (IH (S i) rs0 sl0 Hrest) as [-> Hsl]. split.
    + simpl. unfold marked_up at 2. by rewrite Ht.
    + intros p Hp. destruct (Hsl p Hp) as (Hle & r & Hr & H). split; [lia|].
      exists r. split; [by apply Hshift|done].
Qed.

(** Whatever router_pick_directory_server_impl returns is a trusted
    dirserver with a directory port that is running in the routerlist that the
    call leaves. *)
Lemma pick_directory_server_impl_sound (seed : nat) (routerlist rl' : option routerlist_t)
    (p : nat) :
  router_pick_directory_server_impl seed routerlist = Done (Some p, rl') →
  ∃ l r, rl' = Some l ∧ routers l !! p = Some r ∧
         is_trusted_dir r = true ∧ is_running r = true ∧ (0 < dir_port r)%Z.
Proof.
  unfold router_pick_directory_server_impl. destruct routerlist as [rl|]; [|done].
  destruct (running_dirservers 0 (routers rl)) as [sl|] eqn:Hsl; [|done]. simpl.
  destruct (smartlist_choose seed sl) as [c|] eqn:Hc.
  - intros [= <- <-]. apply smartlist_choose_elem in Hc.
    apply (running_dirservers_sound 0 _ sl Hsl) in Hc as (_ & r & Hr & Hrun & Ht & Hport).
    rewrite Nat.sub_0_r in Hr. by exists rl, r.
  - destruct (mark_dirservers_up 0 (routers rl)) as [[rs' sl']|] eqn:Hup; [|done]. simpl.
    intros [= Hc' <-]. apply smartlist_choose_elem in Hc'.
    destruct (mark_dirservers_up_sound 0 _ rs' sl' Hup) as [-> Hsl'].
    destruct (Hsl' p Hc') as (_ & r & Hr & Ht & Hport). rewrite Nat.sub_0_r in Hr.
    eexists _, (set_is_running r true). split; [done|]. simpl.
    rewrite list_lookup_fmap, Hr. simpl. unfold marked_up. by rewrite Ht.
Qed.

(** X17: a router that router_pick_directory_server_impl returns is a router
    of the routerlist that the call leaves, and there it is trusted, running
    and has a directory port.  The call never returns an untrusted router. *)
Theorem pick_directory_server_impl_returns_trusted (seed : nat)
    (routerlist rl' : option routerlist_t) (p : nat) :
  router_pick_directory_server_impl seed routerlist = Done (Some p, rl') →
  ∃ l r, rl' = Some l ∧ routers l !! p = Some r ∧
         is_trusted_dir r = true ∧ is_running r = true ∧ (0 < dir_port r)%Z.
Proof. apply pick_directory_server_impl_sound. Qed.

(** X18: the same for router_pick_directory_server, whatever the reload
    does: the router returned, by the first attempt or by the attempt after the
    reload, is trusted, running and has a directory port in the routerlist
    that the call leaves; when the reload fails the result is NULL. *)
Theorem pick_directory_server_returns_trusted (seed1 seed2 : nat)
    (reload : option routerlist_t → Z * option routerlist_t)
    (routerlist rl' : option routerlist_t) (choice : option nat) :
  router_pick_directory_server seed1 seed2 reload routerlist = Done (choice, rl') →
  (∀ p, choice = Some p →
     ∃ l r, rl' = Some l ∧ routers l !! p = Some r ∧
            is_trusted_dir r = true ∧ is_running r = true ∧ (0 < dir_port r)%Z) ∧
  (∀ rl1, router_pick_directory_server_impl seed1 routerlist = Done (None, rl1) →
     ((reload (routerlist_clear_trusted_directories rl1)).1 < 0)%Z → choice = None).
Proof.
  unfold router_pick_directory_server.
  destruct (router_pick_directory_server_impl seed1 routerlist) as [[c1 rl1]|] eqn:H1;
    [|done]. simpl.
  destruct c1 as [c1|].
  - intros [= <- <-]. split; [|done]. intros p [= <-].
    by apply (pick_directory_server_impl_sound seed1 routerlist).
  - destruct (Z.ltb_spec (reload (routerlist_clear_trusted_directories rl1)).1 0) as [Hf|Hf].
    + intros [= <- <-]. split; [done|]. done.
    + intros H2. split.
      * intros p ->. by apply (pick_directory_server_impl_sound seed2 _ rl' p) in H2.
      * intros rl2 [= <-] Hneg. lia.
Qed.

Lemma running_dirservers_total (i : nat) (rs : list routerinfo_t) :
  trusted_have_dir_port rs → ∃ sl, running_dirservers i rs = Done sl.
Proof.
  revert i. induction rs as [|r0 rest IH]; intros i Hinv; [by eexists|].
  destruct (IH (S i)) as [sl Hsl].
  { intros r Hr. apply Hinv. by apply list_elem_of_further. }
  cbn [running_dirservers]. rewrite Hsl.
  destruct (is_running r0 && is_trusted_dir r0) eqn:Hrt; [|by eexists].
  apply andb_true_iff in Hrt as [_ Ht].
  assert (Hport : (0 <? dir_port r0)%Z = true).
  { apply Z.ltb_lt. apply Hinv; [apply list_elem_of_here|done]. }
  rewrite Hport. simpl. by eexists.
Qed.

(** X19: when every trusted router has a directory port and some trusted
    router is running, router_pick_directory_server_impl returns a router and
    leaves the routerlist as it was: no router is marked. *)
Theorem pick_directory_server_impl_primary (seed : nat) (rl : routerlist_t) :
  trusted_have_dir_port (routers rl) →
  (∃ r, r ∈ routers rl ∧ is_trusted_dir r = true ∧ is_running r = true) →
  ∃ p, router_pick_directory_server_impl seed (Some rl) = Done (Some p, Some rl).
Proof.
  intros Hinv (r & Hr & Ht & Hrun). unfold router_pick_directory_server_impl.
  destruct (running_dirservers_total 0 (routers rl) Hinv) as [sl Hsl]. rewrite Hsl. simpl.
  assert (Hne : sl ≠ []).
  { apply list_elem_of_lookup_1 in Hr as [p Hp].
    assert (Hin : p ∈ sl).
    { apply (running_dirservers_sound 0 _ sl Hsl). split; [lia|]. exists r.
      rewrite Nat.sub_0_r. split_and!; try done. by apply Hinv; [apply list_elem_of_lookup_2 in Hp|]. }
    intros ->. by apply elem_of_nil in Hin. }
  destruct (smartlist_choose_nonempty seed sl Hne) as [p Hp]. rewrite Hp. by exists p.
Qed.

Lemma dirservers_down_loop_spec (rs : list routerinfo_t) :
  trusted_have_dir_port rs →
  (dirservers_down_loop rs = Done 0%Z ∧
   ∃ r, r ∈ rs ∧ is_running r = true ∧ is_trusted_dir r = true) ∨
  (dirservers_down_loop rs = Done 1%Z ∧
   ∀ r, r ∈ rs → ¬ (is_trusted_dir r = true ∧ is_running r = true)).
Proof.
  induction rs as [|r0 rest IH]; intros Hinv.
  { right. split; [done|]. by intros r ?%elem_of_nil. }
  cbn [dirservers_down_loop].
  destruct (is_running r0 && is_trusted_dir r0) eqn:Hrt.
  - apply andb_true_iff in Hrt as [Hrun Ht]. left.
    assert (Hport : (0 <? dir_port r0)%Z = true).
    { apply Z.ltb_lt. apply Hinv; [apply list_elem_of_here|done]. }
    rewrite Hport. simpl. split; [done|]. exists r0. split; [apply list_elem_of_here|done].
  - destruct IH as [[H (r & Hr & Hrun & Ht)]|[H Hnone]].
    { intros r Hr. apply Hinv. by apply list_elem_of_further. }
    + left. split; [done|]. exists r. split; [by apply list_elem_of_further|done].
    + right. split; [done|]. intros r [->|Hr]%elem_of_cons; [|by apply Hnone].
      intros [Ht Hrun]. by rewrite Hrun, Ht in Hrt.
Qed.

(** X20: when every trusted router has a directory port,
    all_directory_servers_down returns 0 if some router is running and trusted,
    and 1 if none is; it agrees with the first attempt of
    router_pick_directory_server_impl, which finds a router in the first case
    only.  Without a routerlist the answer is 1. *)
Theorem all_directory_servers_down_spec (rl : routerlist_t) :
  trusted_have_dir_port (routers rl) →
  ((all_directory_servers_down (Some rl) = Done 0%Z ∧
    ∃ r, r ∈ routers rl ∧ is_running r = true ∧ is_trusted_dir r = true) ∨
   (all_directory_servers_down (Some rl) = Done 1%Z ∧
    running_dirservers 0 (routers rl) = Done [])) ∧
  all_directory_servers_down (@None routerlist_t) = Done 1%Z.
Proof.
  intros Hinv. split; [|done]. simpl.
  destruct (dirservers_down_loop_spec (routers rl) Hinv) as [H|[H Hnone]]; [by left|].
  right. split; [done|]. by apply running_dirservers_none.
Qed.

Lemma mark_dirservers_up_untrusted (i : nat) (rs : list routerinfo_t) :
  (∀ r, r ∈ rs → is_trusted_dir r = false) →
  mark_dirservers_up i rs = Done (rs, []).
Proof.
  revert i. induction rs as [|r0 rest IH]; intros i Hnone; [done|].
  cbn [mark_dirservers_up]. rewrite (Hnone r0) by apply list_elem_of_here.
  rewrite IH; [done|]. intros r Hr. apply Hnone. by apply list_elem_of_further.
Qed.

(** X21: after routerlist_clear_trusted_directories no router is trusted,
    the other fields of the routers are as before, all_directory_servers_down
    returns 1, and router_pick_directory_server_impl returns NULL without an
    assertion failure and without marking a router. *)
Theorem clear_trusted_directories_then_pick (seed : nat) (rl : routerlist_t) :
  ∃ rl', routerlist_clear_trusted_directories (Some rl) = Some rl' ∧
    routers rl' = map (λ r, set_is_trusted_dir r false) (routers rl) ∧
    (∀ r, r ∈ routers rl' → is_trusted_dir r = false) ∧
    all_directory_servers_down (Some rl') = Done 1%Z ∧
    router_pick_directory_server_impl seed (Some rl') = Done (None, Some rl').
Proof.
  eexists. split; [done|]. simpl.
  set (rs := map (λ r, set_is_trusted_dir r false) (routers rl)).
  assert (Hnone : ∀ r, r ∈ rs → is_trusted_dir r = false).
  { intros r [r0 [-> _]]%list_elem_of_fmap. done. }
  assert (Hnot : ∀ r, r ∈ rs → ¬ (is_trusted_dir r = true ∧ is_running r = true)).
  { intros r Hr [Ht _]. rewrite (Hnone r Hr) in Ht. done. }
  split_and!; [done|done| |].
  - assert (Hinv : trusted_have_dir_port rs).
    { intros r Hr Ht. rewrite (Hnone r Hr) in Ht. done. }
    destruct (dirservers_down_loop_spec rs Hinv) as [[_ (r & Hr & _ & Ht)]|[H _]]; [|done].
    rewrite (Hnone r Hr) in Ht. done.
  - unfold router_pick_directory_server_impl. simpl. fold rs.
    rewrite (running_dirservers_none 0 rs Hnot). simpl.
    rewrite (mark_dirservers_up_untrusted 0 rs Hnone). simpl.
    unfold set_routers. simpl. done.
Qed.

End DirectoryFacts.

Section SelectionFacts.
Context `{Ext : Externals}.

(** *** The node selection, again *)

(** X22: add_nickname_list_to_smartlist is defined exactly when every token
    of the list fits into [nick], that is, has at most [MAX_NICKNAME_LEN]
    characters.  It then only appends to the smartlist, and what it appends
    are routers of the routerlist that are running; routers that are named but
    down are left out, and without a routerlist nothing is appended. *)
Theorem add_nickname_list_appends_running (routerlist : option routerlist_t)
    (sl : list nat) (nicklist : string) :
  (nicknames_fit nicklist →
   ∃ added, add_nickname_list_to_smartlist routerlist sl nicklist = Some (sl ++ added) ∧
     (routerlist = None → added = []) ∧
     ∀ p, p ∈ added →
       ∃ rl r, routerlist = Some rl ∧ routers rl !! p = Some r ∧ is_running r = true) ∧
  (¬ nicknames_fit nicklist →
   add_nickname_list_to_smartlist routerlist sl nicklist = None).
Proof. apply add_nickname_list_spec. Qed.

Lemma add_nickname_list_defined (routerlist : option routerlist_t) (nicklist : string) :
  nicknames_fit nicklist →
  ∃ res, add_nickname_list_to_smartlist routerlist [] nicklist = Some res.
Proof.
  intros Hfit. destruct (add_nickname_list_spec routerlist [] nicklist) as [H _].
  destruct (H Hfit) as (added & Heq & _). by exists ([] ++ added).
Qed.

Lemma running_routers_from_complete (ORPort : Z) (connected : list Z → bool)
    (i : nat) (rs : list routerinfo_t) (p : nat) (r : routerinfo_t) :
  (i ≤ p)%nat → rs !! (p - i)%nat = Some r → is_running r = true →
  ORPort = 0%Z ∨ connected (identity_digest r) = true →
  p ∈ running_routers_from ORPort connected i rs.
Proof.
  revert i. induction rs as [|r0 rest IH]; intros i Hle Hr Hrun Hconn; [done|].
  cbn [running_routers_from].
  destruct (decide (p = i)) as [->|Hne].
  - rewrite Nat.sub_diag in Hr. injection Hr as ->. rewrite Hrun. simpl.
    assert (Hc : (ORPort =? 0)%Z || connected (identity_digest r) = true).
    { destruct Hconn as [-> | ->]; [done|by rewrite orb_true_r]. }
    rewrite Hc. apply list_elem_of_here.
  - assert (Hin : p ∈ running_routers_from ORPort connected (S i) rest).
    { apply IH; [lia| |done|done].
      by replace (p - i)%nat with (S (p - S i)) in Hr by lia. }
    destruct (_ && _); [by apply list_elem_of_further|done].
Qed.

Lemma smartlist_choose_of_elem {A} (seed : nat) (sl : list A) (x : A) :
  x ∈ sl → ∃ y, smartlist_choose seed sl = Some y ∧ y ∈ sl.
Proof.
  intros Hx. destruct (smartlist_choose_nonempty seed sl) as [y Hy].
  { intros ->. by apply elem_of_nil in Hx. }
  exists y. split; [done|]. by apply smartlist_choose_elem in Hy.
Qed.

(** X23: when the tokens of both lists fit into [nick],
    router_choose_random_node does not fail while a usable router is left: if
    some router of the routerlist is running, passes the test on connections
    (no ORPort, or a connection to it), and is not excluded, the result is a
    router, not NULL. *)
Theorem choose_random_node_finds_usable_router (seed : nat) (ORPort : Z)
    (connected : list Z → bool) (rl : routerlist_t)
    (preferred excluded : string) (excludedsmartlist : option (list nat))
    (p : nat) (r : routerinfo_t) :
  nicknames_fit preferred → nicknames_fit excluded →
  routers rl !! p = Some r → is_running r = true →
  ORPort = 0%Z ∨ connected (identity_digest r) = true →
  (∀ excludednodes,
     add_nickname_list_to_smartlist (Some rl) [] excluded = Some excludednodes →
     p ∉ excludednodes) →
  (∀ ex, excludedsmartlist = Some ex → p ∉ ex) →
  ∃ q, router_choose_random_node seed ORPort connected (Some rl)
         preferred excluded excludedsmartlist = Some (Some q).
Proof.
  intros Hfp Hfe Hr Hrun Hconn Hnodes Hex.
  destruct (add_nickname_list_defined (Some rl) excluded Hfe) as [excl Hexcl].
  destruct (add_nickname_list_defined (Some rl) preferred Hfp) as [pref Hpref].
  rewrite (choose_random_node_unfold _ _ _ _ _ _ _ _ _ Hexcl Hpref).
  destruct (smartlist_choose seed (subtract_if_given _ _)) as [c|]; [by eexists|].
  destruct (smartlist_choose_of_elem seed
    (subtract_if_given (smartlist_subtract
       (router_add_running_routers_to_smartlist ORPort connected (Some rl) [])
       excl) excludedsmartlist) p) as (y & Hy & _); [|rewrite Hy; by eexists].
  apply subtract_if_given_elem. split; [|done].
  apply smartlist_subtract_elem. split; [|by apply Hnodes]. simpl.
  apply (running_routers_from_complete ORPort connected 0 _ p r); try done; [lia|].
  by rewrite Nat.sub_0_r.
Qed.

(** X24: the preferred nodes come first: when both lists of nicknames are
    read without overflow and a router named in [preferred] is running and not
    excluded, the result is one of the routers named in [preferred], not
    another running router. *)
Theorem choose_random_node_prefers_preferred (seed : nat) (ORPort : Z)
    (connected : list Z → bool) (routerlist : option routerlist_t)
    (preferred excluded : string) (excludedsmartlist : option (list nat))
    (pref excl : list nat) (p : nat) :
  add_nickname_list_to_smartlist routerlist [] preferred = Some pref →
  add_nickname_list_to_smartlist routerlist [] excluded = Some excl →
  p ∈ pref → p ∉ excl →
  (∀ ex, excludedsmartlist = Some ex → p ∉ ex) →
  ∃ q, router_choose_random_node seed ORPort connected routerlist
         preferred excluded excludedsmartlist = Some (Some q) ∧
       q ∈ pref.
Proof.
  intros Hpref Hexcl Hp Hnodes Hex.
  rewrite (choose_random_node_unfold _ _ _ _ _ _ _ _ _ Hexcl Hpref).
  destruct (smartlist_choose_of_elem seed
    (subtract_if_given (smartlist_subtract pref excl) excludedsmartlist) p)
    as (y & Hyc & Hy).
  { apply subtract_if_given_elem. split; [|done]. by apply smartlist_subtract_elem. }
  rewrite Hyc. exists y. split; [done|].
  apply subtract_if_given_elem in Hy as [Hy _].
  by apply smartlist_subtract_elem in Hy as [Hy _].
Qed.

(** X25: a router that router_mark_as_down has marked is not chosen: after
    the call, router_choose_random_node on the new routerlist, with lists of
    nicknames whose tokens fit into [nick], returns a choice, and the choice is
    not the router that the digest names. *)
Theorem marked_down_router_is_not_chosen (seed : nat) (ORPort : Z)
    (connected : list Z → bool) (rl : routerlist_t) (digest : list Z)
    (preferred excluded : string) (excludedsmartlist : option (list nat))
    (p : nat) (r : routerinfo_t) :
  nicknames_fit preferred → nicknames_fit excluded →
  router_get_by_digest rl digest = Some (p, r) →
  ∃ choice, router_choose_random_node seed ORPort connected
              (Some (router_mark_as_down rl digest)) preferred excluded
              excludedsmartlist = Some choice ∧
            choice ≠ Some p.
Proof.
  intros Hfp Hfe Hget.
  destruct (add_nickname_list_defined (Some (router_mark_as_down rl digest)) excluded Hfe)
    as [excl Hexcl].
  destruct (add_nickname_list_defined (Some (router_mark_as_down rl digest)) preferred Hfp)
    as [pref Hpref].
  rewrite (choose_random_node_unfold _ _ _ _ _ _ _ _ _ Hexcl Hpref).
  eexists. split; [done|]. intros Hchoice.
  assert (Hc : router_choose_random_node seed ORPort connected
                 (Some (router_mark_as_down rl digest)) preferred excluded
                 excludedsmartlist = Some (Some p)).
  { by rewrite (choose_random_node_unfold _ _ _ _ _ _ _ _ _ Hexcl Hpref), Hchoice. }
  apply (choose_random_node_sound _ _ _ _ _ _ _ _ _ Hexcl) in Hc
    as (_ & _ & rl' & r' & [= <-] & Hr' & Hrun).
  unfold router_mark_as_down in Hr'. rewrite Hget in Hr'. simpl in Hr'.
  apply list_find_Some in Hget as (Hp & _).
  rewrite list_lookup_insert_eq in Hr' by (by apply lookup_lt_Some in Hp).
  injection Hr' as <-. done.
Qed.

(** X30: when every token of [preferred] and of [excluded] fits into [nick],
    router_choose_random_node returns a choice, and the node chosen is never
    one of the excluded nodes (the running routers named in [excluded], and the
    routers of [excludedsmartlist]); it is a running router of the routerlist;
    and when the excluded nodes cover every running router the choice is NULL,
    whatever [preferred] names. *)
Theorem choose_random_node_never_excluded (seed : nat) (ORPort : Z)
    (connected : list Z → bool) (routerlist : option routerlist_t)
    (preferred excluded : string) (excludedsmartlist : option (list nat)) :
  nicknames_fit preferred → nicknames_fit excluded →
  ∃ excludednodes choice,
    add_nickname_list_to_smartlist routerlist [] excluded = Some excludednodes ∧
    router_choose_random_node seed ORPort connected routerlist
      preferred excluded excludedsmartlist = Some choice ∧
    (∀ p, choice = Some p →
       (p ∉ excludednodes) ∧
       (∀ ex, excludedsmartlist = Some ex → p ∉ ex) ∧
       ∃ rl r, routerlist = Some rl ∧ routers rl !! p = Some r ∧ is_running r = true) ∧
    ((∀ rl p r, routerlist = Some rl → routers rl !! p = Some r → is_running r = true →
        p ∈ excludednodes ∨ ∃ ex, excludedsmartlist = Some ex ∧ p ∈ ex) →
     choice = None).
Proof.
  intros Hfp Hfe.
  destruct (add_nickname_list_defined routerlist excluded Hfe) as [excl Hexcl].
  destruct (add_nickname_list_defined routerlist preferred Hfp) as [pref Hpref].
  destruct (router_choose_random_node seed ORPort connected routerlist
              preferred excluded excludedsmartlist) as [choice|] eqn:Hchoice.
  2: { by rewrite (choose_random_node_unfold _ _ _ _ _ _ _ _ _ Hexcl Hpref) in Hchoice. }
  exists excl, choice. split_and!; [done|done| |].
  - intros p ->. by apply (choose_random_node_sound _ _ _ _ _ _ _ _ _ Hexcl Hchoice).
  - intros Hcover. destruct choice as [p|]; [|done].
    destruct (choose_random_node_sound _ _ _ _ _ _ _ _ _ Hexcl Hchoice)
      as (Hnodes & Hex & rl & r & Hrl & Hr & Hrun).
    destruct (Hcover rl p r Hrl Hr Hrun) as [Hin|(ex & Hex' & Hin)]; [done|].
    by destruct (Hex ex Hex').
Qed.

End SelectionFacts.

Section ResolveFacts.
Context `{Res : ResolveExternals}.

(** *** router_resolve_routerlist and the loaders *)

Lemma omap_resolved_cons (r : routerinfo_t) (l : list routerinfo_t) :
  omap resolved (r :: l) =
    match resolved r with
    | Some y => y :: omap resolved l
    | None => omap resolved l
    end.
Proof. done. Qed.

Lemma take_delete_same {A} (l : list A) (i : nat) (x : A) :
  l !! i = Some x →
  take i (delete i l) = take i l ∧ drop i (delete i l) = drop (S i) l.
Proof.
  intros Hx. apply list_elem_of_split_length in Hx as (l1 & l2 & -> & ->).
  rewrite delete_middle, !take_app_length, drop_app_length.
  by rewrite (cons_middle x l1 l2), app_assoc, drop_app_length'
    by (rewrite length_app; simpl; lia).
Qed.

Lemma resolve_loop_spec (rs : list routerinfo_t) (i : nat) :
  resolve_loop rs i = take i rs ++ omap resolved (drop i rs).
Proof.
  funelim (resolve_loop rs i).
  - pose proof (lookup_ge_None_1 _ _ e). by rewrite take_ge, drop_ge, app_nil_r by lia.
  - match goal with IH : resolve_loop _ _ = take _ _ ++ _ |- _ => rewrite IH end.
    unfold smartlist_del_keeporder.
    destruct (take_delete_same rs i r Hi) as [-> ->].
    rewrite (drop_S rs r i Hi), omap_resolved_cons. unfold resolved at 2. by rewrite Heq.
  - match goal with IH : resolve_loop _ _ = take _ _ ++ _ |- _ => rewrite IH end.
    rewrite (take_S_r rs i r Hi), (drop_S rs r i Hi), omap_resolved_cons.
    unfold resolved at 2. rewrite Heq0, Heq. by rewrite <- app_assoc.
  - match goal with IH : resolve_loop _ _ = take _ _ ++ _ |- _ => rewrite IH end.
    apply lookup_lt_Some in Hi as Hlt.
    rewrite (take_S_r (<[i:=r']> rs) i r') by (by apply list_lookup_insert_eq).
    rewrite take_insert_ge by lia. rewrite drop_insert_lt by lia.
    rewrite (drop_S rs r i Hi), omap_resolved_cons.
    unfold resolved at 2. rewrite Heq1, Heq0, Heq. by rewrite <- app_assoc.
  - match goal with IH : resolve_loop _ _ = take _ _ ++ _ |- _ => rewrite IH end.
    unfold smartlist_del_keeporder.
    destruct (take_delete_same rs i r Hi) as [-> ->].
    rewrite (drop_S rs r i Hi), omap_resolved_cons. unfold resolved at 2.
    by rewrite Heq1, Heq0, Heq.
Qed.

Lemma resolved_Some (r r' : routerinfo_t) :
  resolved r = Some r' ↔
  router_is_me r = false ∧
  ((addr r ≠ 0%Z ∧ r' = r) ∨
   (addr r = 0%Z ∧ ∃ a, tor_lookup_hostname (address r) = Some a ∧ a ≠ 0%Z ∧
                        r' = set_addr r (ntohl a))).
Proof.
  unfold resolved, router_resolve. destruct (router_is_me r).
  { split; [done|]. by intros [? _]. }
  destruct (Z.eqb_spec (addr r) 0) as [E|E].
  - destruct (tor_lookup_hostname (address r)) as [a|].
    + destruct (Z.eqb_spec a 0) as [Ea|Ea].
      * split; [done|]. intros [_ [[? _]|(_ & a' & [= <-] & ? & _)]]; done.
      * split.
        -- intros [= <-]. split; [done|]. right. split; [done|]. by exists a.
        -- intros [_ [[? _]|(_ & a' & [= <-] & _ & ->)]]; done.
    + split; [done|]. intros [_ [[? _]|(_ & a' & ? & _)]]; done.
  - split.
    + intros [= <-]. split; [done|]. by left.
    + intros [_ [[_ ->]|[? _]]]; done.
Qed.

Lemma router_resolve_routerlist_eq (rl : routerlist_t) :
  router_resolve_routerlist rl =
    (0%Z, set_routers rl
            (match router_get_my_routerinfo with
             | Some me => me :: omap resolved (routers rl)
             | None => omap resolved (routers rl)
             end)).
Proof.
  unfold router_resolve_routerlist. destruct router_get_my_routerinfo as [me|].
  - rewrite resolve_loop_spec. unfold smartlist_insert. by rewrite take_0, drop_0.
  - rewrite resolve_loop_spec. by rewrite take_0, drop_0.
Qed.

Lemma elem_of_omap_resolved (rs : list routerinfo_t) (r' : routerinfo_t) :
  r' ∈ omap resolved rs ↔
    ∃ r, r ∈ rs ∧ router_is_me r = false ∧
      ((addr r ≠ 0%Z ∧ r' = r) ∨
       (addr r = 0%Z ∧ ∃ a, tor_lookup_hostname (address r) = Some a ∧ a ≠ 0%Z ∧
                            r' = set_addr r (ntohl a))).
Proof. rewrite list_elem_of_omap. by setoid_rewrite resolved_Some. Qed.

(** X26: the loop of router_resolve_routerlist, with its removals in place,
    visits every router once and keeps the order: the result is the copy of
    the own routerinfo, when there is one, followed by the routers of the list
    that are not the program itself, each as it was when its address was
    resolved already, else with the address that the lookup gives (in host
    order); routers whose lookup fails or gives 0 are dropped.  The return
    value is 0. *)
Theorem resolve_routerlist_result (rl : routerlist_t) :
  router_resolve_routerlist rl =
    (0%Z, set_routers rl
            (match router_get_my_routerinfo with
             | Some me => me :: omap resolved (routers rl)
             | None => omap resolved (routers rl)
             end)) ∧
  ∀ r', r' ∈ omap resolved (routers rl) ↔
    ∃ r, r ∈ routers rl ∧ router_is_me r = false ∧
      ((addr r ≠ 0%Z ∧ r' = r) ∨
       (addr r = 0%Z ∧ ∃ a, tor_lookup_hostname (address r) = Some a ∧ a ≠ 0%Z ∧
                            r' = set_addr r (ntohl a))).
Proof.
  split; [apply router_resolve_routerlist_eq|]. intros r'. apply elem_of_omap_resolved.
Qed.

Lemma omap_fixed {A} (f : A → option A) (l : list A) :
  (∀ x, x ∈ l → f x = Some x) → omap f l = l.
Proof.
  induction l as [|x l IH]; intros H; [done|]. simpl.
  rewrite (H x) by apply list_elem_of_here. simpl. f_equal.
  apply IH. intros y Hy. apply H. by apply list_elem_of_further.
Qed.

(** X27: a second resolution pass changes nothing, under what the pass
    expects of the rest of the program: ntohl sends no address but 0 to 0,
    router_is_me does not depend on the resolved address, and the own
    routerinfo is recognised by router_is_me.  The copy of the own routerinfo
    that the first pass put in front is removed by the second pass, which puts
    a new copy there. *)
Theorem resolve_routerlist_twice (rl : routerlist_t) :
  (∀ a, a ≠ 0%Z → ntohl a ≠ 0%Z) →
  (∀ r a, router_is_me (set_addr r a) = router_is_me r) →
  (∀ me, router_get_my_routerinfo = Some me → router_is_me me = true) →
  router_resolve_routerlist (router_resolve_routerlist rl).2 =
  router_resolve_routerlist rl.
Proof.
  intros Hntohl Hme Hself.
  assert (Hfix : omap resolved (omap resolved (routers rl)) = omap resolved (routers rl)).
  { apply omap_fixed. intros y [r [_ Hr]]%list_elem_of_omap.
    apply resolved_Some in Hr as [Hnot [[Ha ->]|(Ha & a & Hl & Hnz & ->)]].
    - apply resolved_Some. split; [done|]. by left.
    - apply resolved_Some. rewrite Hme. split; [done|]. left. simpl.
      split; [by apply Hntohl|done]. }
  rewrite !router_resolve_routerlist_eq. cbn [snd routers set_routers].
  destruct router_get_my_routerinfo as [me|] eqn:Hmy.
  - rewrite omap_resolved_cons.
    assert (Hnone : resolved me = None).
    { unfold resolved. by rewrite (Hself me eq_refl). }
    by rewrite Hnone, Hfix.
  - by rewrite Hfix.
Qed.

(** X28: router_load_routerlist_from_directory fails only when the parser
    does, and then leaves the routerlist alone.  Otherwise the routerlist that
    it leaves has the publication date of the new directory, even when that is
    older than the date it had, and a running-routers list that is not newer
    than the directory is ignored afterwards. *)
Theorem load_from_directory_then_stale_runningrouters
    (new_list : routerlist_t) (routerlist : option routerlist_t)
    (rr : running_routers_t) :
  router_load_routerlist_from_directory None routerlist = ((-1)%Z, routerlist) ∧
  ∃ rl', router_load_routerlist_from_directory (Some new_list) routerlist =
           (0%Z, Some rl') ∧
         rl_published_on rl' = rl_published_on new_list ∧
         ((rr_published_on rr ≤ rl_published_on new_list)%Z →
          routerlist_update_from_runningrouters (Some rl') rr = Some rl').
Proof.
  split; [done|]. unfold router_load_routerlist_from_directory.
  set (l := match routerlist with Some rl => _ | None => new_list end).
  assert (Hl : rl_published_on l = rl_published_on new_list).
  { unfold l. by destruct routerlist. }
  rewrite (router_resolve_routerlist_eq l). simpl.
  eexists. split; [done|]. simpl. split; [done|].
  intros Hstale. unfold routerlist_update_from_runningrouters. simpl.
  rewrite Hl. by destruct (Z.leb_spec (rr_published_on rr) (rl_published_on new_list)); [|lia].
Qed.

Lemma trust_dirservers_invariant (rs : list routerinfo_t) :
  trusted_have_dir_port rs → (∀ r, r ∈ rs → (0 ≤ dir_port r)%Z) →
  trusted_have_dir_port (trust_dirservers rs) ∧
  ∀ r, r ∈ trust_dirservers rs → dir_port r ≠ 0%Z → is_trusted_dir r = true.
Proof.
  intros Hinv Hpos. unfold trust_dirservers. split.
  - intros r [r0 [-> Hr0]]%list_elem_of_fmap.
    destruct (Z.eqb_spec (dir_port r0) 0) as [E|E]; [by apply Hinv|].
    simpl. intros _. specialize (Hpos r0 Hr0). lia.
  - intros r [r0 [-> Hr0]]%list_elem_of_fmap.
    destruct (Z.eqb_spec (dir_port r0) 0) as [E|E]; simpl; done.
Qed.

(** X29: the first load of a trusted router file (no routerlist yet) leaves
    a routerlist in which every trusted router has a directory port, provided
    the parsed routers had the property and no negative port, and the own
    routerinfo has it too: the loader trusts only routers with a directory
    port, and the resolution pass changes addresses only. *)
Theorem load_trusted_from_string_keeps_dir_ports (new_list : routerlist_t) :
  trusted_have_dir_port (routers new_list) →
  (∀ r, r ∈ routers new_list → (0 ≤ dir_port r)%Z) →
  (∀ me, router_get_my_routerinfo = Some me → is_trusted_dir me = true →
         (0 < dir_port me)%Z) →
  ∃ rl', router_load_routerlist_from_string (Some new_list) true None =
           (0%Z, Some rl') ∧
         trusted_have_dir_port (routers rl').
Proof.
  intros Hinv Hpos Hself. unfold router_load_routerlist_from_string.
  destruct (trust_dirservers_invariant (routers new_list) Hinv Hpos) as [Hinv' _].
  rewrite router_resolve_routerlist_eq.
  simpl. eexists. split; [done|]. simpl.
  assert (Hres : trusted_have_dir_port
            (omap resolved (trust_dirservers (routers new_list)))).
  { intros r' Hr'.
    apply elem_of_omap_resolved in Hr' as (r & Hr & _ & [[_ ->]|(_ & a & _ & _ & ->)]).
    - by apply Hinv'.
    - simpl. by apply Hinv'. }
  destruct router_get_my_routerinfo as [me|] eqn:Hmy; [|done].
  intros r [->|Hr]%elem_of_cons; [by apply Hself|by apply Hres].
Qed.

End ResolveFacts.

(** ** The further theorems at sample inputs *)

Ltac solve_c_string :=
  unfold c_string; simpl;
  repeat first [ apply Forall_nil_2 | apply Forall_cons_2; [discriminate|] ].

Lemma all_routers_reject_iff_witness :
  router_exit_policy_all_routers_reject (sample_list [closed_router; moria_down])
    16909060 80 = 1%Z.
Proof.
  apply (proj2 (@all_routers_reject_iff sample_externals
                  (sample_list [closed_router; moria_down]) 16909060 80)).
  intros r Hr Hrun. simpl in Hr.
  apply elem_of_cons in Hr as [->|Hr]; [reflexivity|].
  apply list_elem_of_singleton in Hr as ->. discriminate Hrun.
Defined.

Lemma add_unknown_nickname_appends_witness :
  router_add_to_routerlist (sample_list [moria_trusted]) plain_router =
    (0%Z, set_routers (sample_list [moria_trusted]) ([moria_trusted] ++ [plain_router])).
Proof.
  apply (@add_unknown_nickname_appends sample_externals
           (sample_list [moria_trusted]) plain_router).
  intros r Hr. simpl in Hr. apply list_elem_of_singleton in Hr as ->.
  vm_compute. discriminate.
Defined.

Lemma add_newer_descriptor_replaces_witness :
  ∃ r',
    router_add_to_routerlist (sample_list [moria_trusted]) moria_without_dir_port =
      (0%Z, set_routers (sample_list [moria_trusted]) (<[0%nat := r']> [moria_trusted])) ∧
    r' = set_addr (set_is_trusted_dir moria_without_dir_port true) 0.
Proof.
  apply (@add_newer_descriptor_replaces sample_externals
           (sample_list [moria_trusted]) moria_without_dir_port moria_trusted 0).
  - reflexivity.
  - intros j r' Hj. lia.
  - reflexivity.
  - reflexivity.
  - simpl. lia.
Defined.

Lemma add_other_key_changes_nothing_witness :
  router_add_to_routerlist (sample_list [moria_trusted]) moria_other_key =
    ((-1)%Z, sample_list [moria_trusted]).
Proof.
  apply (@add_other_key_changes_nothing sample_externals
           (sample_list [moria_trusted]) moria_other_key moria_trusted 0).
  - reflexivity.
  - intros j r' Hj. lia.
  - reflexivity.
  - vm_compute. discriminate.
Defined.

Lemma add_same_descriptor_twice_witness :
  router_add_to_routerlist
    (router_add_to_routerlist (sample_list [moria_trusted]) plain_router).2 plain_router =
    ((-1)%Z, (router_add_to_routerlist (sample_list [moria_trusted]) plain_router).2).
Proof.
  apply (@add_same_descriptor_twice sample_externals
           (sample_list [moria_trusted]) plain_router).
  reflexivity.
Defined.

Lemma add_keeps_nicknames_distinct_witness :
  nicknames_distinct
    (routers (router_add_to_routerlist (sample_list [moria_trusted]) plain_router).2) ∧
  nicknames_c_strings
    (routers (router_add_to_routerlist (sample_list [moria_trusted]) plain_router).2).
Proof.
  apply (@add_keeps_nicknames_distinct sample_externals
           (sample_list [moria_trusted]) plain_router).
  - intros i j ri rj Hi Hj Hne. simpl in Hi, Hj.
    destruct i as [|i]; destruct j as [|j]; try done.
  - intros r Hr. simpl in Hr. apply list_elem_of_singleton in Hr as ->. solve_c_string.
  - solve_c_string.
Defined.

Lemma add_all_keeps_trust_and_nicknames_witness :
  ∃ r', routers (add_all_to_routerlist (sample_list [moria_trusted])
                   [moria_without_dir_port; plain_router]) !! 0%nat = Some r' ∧
        is_trusted_dir r' = true.
Proof.
  apply (proj1 (@add_all_keeps_trust_and_nicknames sample_externals
                  (sample_list [moria_trusted]) [moria_without_dir_port; plain_router])
           0%nat moria_trusted); reflexivity.
Defined.

Lemma fresh_runningrouters_touch_only_is_running_witness :
  ∃ l', routerlist_update_from_runningrouters (Some (sample_list [moria_down]))
          fresh_running_routers = Some l' ∧
    running_routers_updated_on l' = 10%Z ∧
    rl_published_on l' = 0%Z ∧
    software_versions l' = "" ∧
    length (routers l') = 1%nat ∧
    ∀ i r, [moria_down] !! i = Some r →
      ∃ r', routers l' !! i = Some r' ∧ same_descriptor r' r ∧
            is_trusted_dir r' = is_trusted_dir r.
Proof.
  apply (@fresh_runningrouters_touch_only_is_running sample_externals
           (sample_list [moria_down]) fresh_running_routers); simpl; lia.
Defined.

Lemma runningrouters_names_only_mark_up_witness :
  is_running (update_from_names plain_router ["moria1"; "!tor26"]) = true.
Proof.
  apply (proj2 (proj2 (@runningrouters_names_only_mark_up sample_externals
                         plain_router ["moria1"; "!tor26"] eq_refl))).
  reflexivity.
Defined.

Lemma mark_as_down_then_lookup_witness :
  router_get_by_digest
    (router_mark_as_down (sample_list [moria_trusted; plain_router]) (replicate 20 8%Z))
    (replicate 20 8%Z) = Some (1%nat, set_is_running plain_router false).
Proof.
  apply (proj2 (@mark_as_down_then_lookup sample_externals
                  (sample_list [moria_trusted; plain_router]) (replicate 20 8%Z))
           1%nat plain_router).
  reflexivity.
Defined.

Lemma pick_directory_server_impl_returns_trusted_witness :
  ∃ l r, Some (sample_list [plain_router; moria_trusted]) = Some l ∧
         routers l !! 1%nat = Some r ∧
         is_trusted_dir r = true ∧ is_running r = true ∧ (0 < dir_port r)%Z.
Proof.
  apply (@pick_directory_server_impl_returns_trusted sample_externals 3
           (Some (sample_list [plain_router; moria_trusted]))
           (Some (sample_list [plain_router; moria_trusted])) 1).
  reflexivity.
Defined.

Lemma pick_directory_server_returns_trusted_witness :
  ∃ l r, Some (sample_list [plain_router; moria_trusted]) = Some l ∧
         routers l !! 1%nat = Some r ∧
         is_trusted_dir r = true ∧ is_running r = true ∧ (0 < dir_port r)%Z.
Proof.
  apply (proj1 (@pick_directory_server_returns_trusted sample_externals 3 4
                  (λ rl, (0%Z, rl))
                  (Some (sample_list [plain_router; moria_trusted]))
                  (Some (sample_list [plain_router; moria_trusted]))
                  (Some 1%nat) eq_refl) 1%nat eq_refl).
Defined.

Lemma sample_trusted_have_dir_port :
  @trusted_have_dir_port sample_externals [plain_router; moria_trusted].
Proof.
  intros r Hr Ht. apply elem_of_cons in Hr as [->|Hr]; [discriminate Ht|].
  apply list_elem_of_singleton in Hr as ->. simpl. lia.
Defined.

Lemma pick_directory_server_impl_primary_witness :
  ∃ p, router_pick_directory_server_impl 3 (Some (sample_list [plain_router; moria_trusted]))
       = Done (Some p, Some (sample_list [plain_router; moria_trusted])).
Proof.
  apply (@pick_directory_server_impl_primary sample_externals 3
           (sample_list [plain_router; moria_trusted])).
  - apply sample_trusted_have_dir_port.
  - exists moria_trusted. split_and!; [|reflexivity|reflexivity].
    apply list_elem_of_further, list_elem_of_here.
Defined.

Lemma all_directory_servers_down_spec_witness :
  ((all_directory_servers_down (Some (sample_list [plain_router; moria_trusted])) = Done 0%Z ∧
    ∃ r, r ∈ [plain_router; moria_trusted] ∧ is_running r = true ∧ is_trusted_dir r = true) ∨
   (all_directory_servers_down (Some (sample_list [plain_router; moria_trusted])) = Done 1%Z ∧
    running_dirservers 0 [plain_router; moria_trusted] = Done [])) ∧
  all_directory_servers_down (@None (@routerlist_t sample_externals)) = Done 1%Z.
Proof.
  apply (@all_directory_servers_down_spec sample_externals
           (sample_list [plain_router; moria_trusted])).
  apply sample_trusted_have_dir_port.
Defined.

Lemma resolve_routerlist_twice_witness :
  @router_resolve_routerlist sample_externals sample_resolver
    (@router_resolve_routerlist sample_externals sample_resolver
       (sample_list [plain_router; sample_router "me" 99 100 0 true false])).2 =
  @router_resolve_routerlist sample_externals sample_resolver
    (sample_list [plain_router; sample_router "me" 99 100 0 true false]).
Proof.
  apply (@resolve_routerlist_twice sample_externals sample_resolver
           (sample_list [plain_router; sample_router "me" 99 100 0 true false])).
  - intros a Ha. exact Ha.
  - intros r a. reflexivity.
  - intros me Hme. injection Hme as <-. reflexivity.
Defined.

Lemma load_from_directory_then_stale_runningrouters_witness :
  ∃ rl', @router_load_routerlist_from_directory sample_externals sample_resolver
           (Some (sample_list [moria_trusted])) None = (0%Z, Some rl') ∧
         routerlist_update_from_runningrouters (Some rl') sample_running_routers = Some rl'.
Proof.
  destruct (@load_from_directory_then_stale_runningrouters sample_externals sample_resolver
              (sample_list [moria_trusted]) None sample_running_routers)
    as (_ & rl' & Hload & _ & Hstale).
  exists rl'. split; [exact Hload|]. apply Hstale. simpl. lia.
Defined.

Lemma load_trusted_from_string_keeps_dir_ports_witness :
  ∃ rl', @router_load_routerlist_from_string sample_externals sample_resolver
           (Some (sample_list [plain_router; moria_trusted])) true None = (0%Z, Some rl') ∧
         trusted_have_dir_port (routers rl').
Proof.
  apply (@load_trusted_from_string_keeps_dir_ports sample_externals sample_resolver
           (sample_list [plain_router; moria_trusted])).
  - apply sample_trusted_have_dir_port.
  - intros r Hr. simpl in Hr. apply elem_of_cons in Hr as [->|Hr]; [simpl; lia|].
    apply list_elem_of_singleton in Hr as ->. simpl. lia.
  - intros me Hme Ht. injection Hme as <-. discriminate Ht.
Defined.

Lemma clear_trusted_directories_then_pick_witness :
  ∃ rl', routerlist_clear_trusted_directories
           (Some (sample_list [plain_router; moria_trusted])) = Some rl' ∧
         all_directory_servers_down (Some rl') = Done 1%Z ∧
         router_pick_directory_server_impl 3 (Some rl') = Done (None, Some rl').
Proof.
  destruct (@clear_trusted_directories_then_pick sample_externals 3
              (sample_list [plain_router; moria_trusted]))
    as (rl' & Hclear & _ & _ & Hdown & Hpick).
  exists rl'. split_and!; [exact Hclear|exact Hdown|exact Hpick].
Defined.

Lemma add_nickname_list_appends_running_witness :
  ∃ added, add_nickname_list_to_smartlist
             (Some (sample_list [moria_down; plain_router])) [7%nat] "moria1, tor26"
           = Some ([7%nat] ++ added).
Proof.
  destruct (@add_nickname_list_appends_running sample_externals
              (Some (sample_list [moria_down; plain_router])) [7%nat] "moria1, tor26")
    as [Hfit _].
  destruct Hfit as (added & Hadded & _).
  - unfold nicknames_fit. simpl. lia.
  - exists added. exact Hadded.
Defined.

Lemma choose_random_node_finds_usable_router_witness :
  ∃ q, router_choose_random_node 5 0 (λ _, false)
         (Some (sample_list [moria_trusted; plain_router])) "" "moria1" None
       = Some (Some q).
Proof.
  apply (@choose_random_node_finds_usable_router sample_externals 5 0 (λ _, false)
           (sample_list [moria_trusted; plain_router]) "" "moria1" None 1 plain_router).
  - unfold nicknames_fit. simpl. lia.
  - unfold nicknames_fit. simpl. lia.
  - reflexivity.
  - reflexivity.
  - left. reflexivity.
  - intros excludednodes Hnodes.
    assert (E : add_nickname_list_to_smartlist
                  (Some (sample_list [moria_trusted; plain_router])) [] "moria1"
                = Some [0%nat]) by reflexivity.
    rewrite E in Hnodes. injection Hnodes as <-.
    intros H. apply list_elem_of_singleton in H. discriminate H.
  - intros ex Hex. discriminate Hex.
Defined.

Lemma choose_random_node_prefers_preferred_witness :
  ∃ q, router_choose_random_node 5 0 (λ _, false)
         (Some (sample_list [moria_trusted; plain_router])) "tor26" "moria1" None
       = Some (Some q) ∧
       q ∈ [1%nat].
Proof.
  apply (@choose_random_node_prefers_preferred sample_externals 5 0 (λ _, false)
           (Some (sample_list [moria_trusted; plain_router])) "tor26" "moria1" None
           [1%nat] [0%nat] 1).
  - reflexivity.
  - reflexivity.
  - apply list_elem_of_here.
  - intros H. apply list_elem_of_singleton in H. discriminate H.
  - intros ex Hex. discriminate Hex.
Defined.

Lemma marked_down_router_is_not_chosen_witness :
  ∃ choice, router_choose_random_node 5 0 (λ _, false)
              (Some (router_mark_as_down (sample_list [moria_trusted; plain_router])
                       (replicate 20 8%Z))) "tor26" "" None = Some choice ∧
            choice ≠ Some 1%nat.
Proof.
  apply (@marked_down_router_is_not_chosen sample_externals 5 0 (λ _, false)
           (sample_list [moria_trusted; plain_router]) (replicate 20 8%Z)
           "tor26" "" None 1 plain_router).
  - unfold nicknames_fit. simpl. lia.
  - unfold nicknames_fit. simpl. lia.
  - reflexivity.
Defined.

Lemma choose_random_node_never_excluded_witness :
  router_choose_random_node 5 0 (λ _, false)
    (Some (sample_list [moria_trusted; plain_router])) "moria1" "moria1, tor26" (Some [1%nat])
  = Some None.
Proof.
  destruct (@choose_random_node_never_excluded sample_externals 5 0 (λ _, false)
              (Some (sample_list [moria_trusted; plain_router])) "moria1" "moria1, tor26"
              (Some [1%nat]))
    as (excludednodes & choice & Hnodes & Hchoice & _ & Hcover).
  - unfold nicknames_fit. simpl. lia.
  - unfold nicknames_fit. simpl. lia.
  - rewrite Hchoice. f_equal. apply Hcover.
    assert (E : add_nickname_list_to_smartlist
                  (Some (sample_list [moria_trusted; plain_router])) [] "moria1, tor26"
                = Some [0%nat; 1%nat]) by reflexivity.
    rewrite E in Hnodes. injection Hnodes as <-.
    intros rl p r [= <-] Hr Hrun.
    destruct p as [|[|p]]; simpl in Hr.
    + left. apply list_elem_of_here.
    + right. exists [1%nat]. split; [reflexivity|apply list_elem_of_here].
    + discriminate Hr.
Defined.

Lemma resolve_routerlist_result_witness :
  @router_resolve_routerlist sample_externals sample_resolver
    (sample_list [plain_router; sample_router "me" 99 100 0 true false]) =
  (0%Z, sample_list [sample_router "me" 99 400 0 true false;
                     set_addr plain_router 16909060]).
Proof.
  exact (proj1 (@resolve_routerlist_result sample_externals sample_resolver
                  (sample_list [plain_router; sample_router "me" 99 100 0 true false]))).
Defined.
